(** * Log items of the k9s data-access layer: parsing, rendering, filtering

    A shallow embedding of [internal/dao/log_item.go], [log_items.go] and
    [log_modifier.go]: a Go [string] is a [string], a [[]byte] is a
    [list byte], an [int] is a [Z], a panic is [None] in the option monad,
    and the process-wide modifier registry is a [gmap] that is passed
    explicitly. *)

From Stdlib Require Import ZArith Strings.String Strings.Byte Sorting.Sorted.
From stdpp Require Import base option list gmap strings.

Local Open Scope Z_scope.

(** ** Bytes, strings and slices *)

Abbreviation bytes := (list byte).

Definition byte_val (c : byte) : Z := Z.of_N (Byte.to_N c).

Definition len {A} (s : list A) : Z := Z.of_nat (length s).

Definition str_len (s : string) : Z := Z.of_nat (String.length s).

(** [[]byte(s)] and [string(b)]. *)
Definition to_bytes (s : string) : bytes := list_byte_of_string s.
Definition to_string (b : bytes) : string := string_of_list_byte b.

(** [s[:hi]]: panics unless [0 <= hi <= len(s)]. *)
Definition slice_to {A} (s : list A) (hi : Z) : option (list A) :=
  if (0 <=? hi) && (hi <=? len s) then Some (take (Z.to_nat hi) s) else None.

(** [s[lo:]]: panics unless [0 <= lo <= len(s)]. *)
Definition slice_from {A} (s : list A) (lo : Z) : option (list A) :=
  if (0 <=? lo) && (lo <=? len s) then Some (drop (Z.to_nat lo) s) else None.

(** [s[lo:]] on a string. *)
Definition str_slice_from (s : string) (lo : Z) : option string :=
  to_string <$> slice_from (to_bytes s) lo.

(** [s[i]]: panics when out of range. *)
Definition index {A} (s : list A) (i : Z) : option A :=
  if (0 <=? i) then s !! Z.to_nat i else None.

Definition space : byte := " "%byte.
Definition newline : byte := x0a.

(** [bytes.Split(s, sep)] for a one-byte separator, as in the only call of
    the source, [bytes.Split(_, []byte(" "))]: the pieces between the
    occurrences of [sep], always at least one piece. *)
Fixpoint Split (s : bytes) (sep : byte) : list bytes :=
  match s with
  | [] => [[]]
  | c :: s' =>
      if Byte.eqb c sep then [] :: Split s' sep
      else match Split s' sep with
           | [] => [[c]]
           | w :: ws => (c :: w) :: ws
           end
  end.

(** [bytes.Join(s, sep)]. *)
Fixpoint Join (s : list bytes) (sep : bytes) : bytes :=
  match s with
  | [] => []
  | [w] => w
  | w :: ws => w ++ sep ++ Join ws sep
  end.

(** ** UTF-8 decoding

    [utf8.DecodeRune]: the rune at the front of [p] and its width in bytes.
    An invalid or truncated encoding is [RuneError] of width 1; the empty
    input is [RuneError] of width 0. *)

Definition RuneError : Z := 65533.

Definition in_range (lo hi : Z) (c : byte) : bool :=
  (lo <=? byte_val c) && (byte_val c <=? hi).

(** The [first] table with its [acceptRanges]: for a leading byte, the width
    of the encoding and the range accepted for the second byte. *)
Definition first (p0 : byte) : option (nat * (Z * Z)) :=
  let v := byte_val p0 in
  if v <? 194 then None
  else if v <=? 223 then Some (2%nat, (128, 191))
  else if v =? 224 then Some (3%nat, (160, 191))
  else if v <=? 236 then Some (3%nat, (128, 191))
  else if v =? 237 then Some (3%nat, (128, 159))
  else if v <=? 239 then Some (3%nat, (128, 191))
  else if v =? 240 then Some (4%nat, (144, 191))
  else if v <=? 243 then Some (4%nat, (128, 191))
  else if v =? 244 then Some (4%nat, (128, 143))
  else None.

Definition cont (c : byte) : bool := in_range 128 191 c.

Definition DecodeRune (p : bytes) : Z * nat :=
  match p with
  | [] => (RuneError, 0%nat)
  | p0 :: q =>
      if byte_val p0 <? 128 then (byte_val p0, 1%nat)
      else match first p0 with
      | None => (RuneError, 1%nat)
      | Some (sz, (lo, hi)) =>
          match q with
          | [] => (RuneError, 1%nat)
          | b1 :: q1 =>
              if negb (in_range lo hi b1) then (RuneError, 1%nat)
              else if (sz <=? 2)%nat then
                (Z.lor (Z.shiftl (Z.land (byte_val p0) 31) 6)
                       (Z.land (byte_val b1) 63), 2%nat)
              else match q1 with
              | [] => (RuneError, 1%nat)
              | b2 :: q2 =>
                  if negb (cont b2) then (RuneError, 1%nat)
                  else if (sz <=? 3)%nat then
                    (Z.lor (Z.lor (Z.shiftl (Z.land (byte_val p0) 15) 12)
                                  (Z.shiftl (Z.land (byte_val b1) 63) 6))
                           (Z.land (byte_val b2) 63), 3%nat)
                  else match q2 with
                  | [] => (RuneError, 1%nat)
                  | b3 :: _ =>
                      if negb (cont b3) then (RuneError, 1%nat)
                      else
                        (Z.lor (Z.lor (Z.lor
                           (Z.shiftl (Z.land (byte_val p0) 7) 18)
                           (Z.shiftl (Z.land (byte_val b1) 63) 12))
                           (Z.shiftl (Z.land (byte_val b2) 63) 6))
                           (Z.land (byte_val b3) 63), 4%nat)
                  end
              end
          end
      end
  end.

Global Arguments DecodeRune : simpl never.

(** The runes a [for _, r := range s] loop visits: a rune is decoded at each
    offset the loop stops at, and the bytes of its encoding are stepped
    over ([skip] counts the bytes still to step over). *)
Fixpoint runes_from (skip : nat) (s : bytes) : list Z :=
  match s with
  | [] => []
  | _ :: s' =>
      match skip with
      | S k => runes_from k s'
      | O => let '(r, size) := DecodeRune s in r :: runes_from (size - 1) s'
      end
  end.

Definition runes (s : string) : list Z := runes_from 0 (to_bytes s).

(** ** Machine integers: Go's [int] is 64 bits wide *)

Definition max_int : Z := 2 ^ 63 - 1.

Definition wrap (z : Z) : Z := (z + 2 ^ 63) mod 2 ^ 64 - 2 ^ 63.

Definition int_add (a b : Z) : Z := wrap (a + b).

(** ** The regular expressions of the package

    The fragment of [regexp] syntax that [escPattern] is written in, with
    the library's leftmost-first (backtracking-order) matching.  The operand
    of a repetition is one byte wide, as in [escPattern].  Matching is by
    bytes: the literals and classes of this fragment are ASCII, and an ASCII
    byte never occurs inside the UTF-8 encoding of another rune. *)
Module Rx.

Inductive re :=
| Eps
| Char (p : byte → bool)
| Star (p : byte → bool)
| Plus (p : byte → bool)
| Cat (r1 r2 : re)
| Group (r : re).

(** A match: its span [[m_lo, m_hi)] and the span of capture group 1. *)
Record span := mkSpan {
  m_lo : nat;
  m_hi : nat;
  m_group : option (nat * nat)
}.

Section Run.
Context {A : Type}.

(** Greedy [x*]: the longest run first, then shorter ones. *)
Fixpoint star (p : byte → bool) (s : bytes) (i : nat)
    (k : bytes → nat → option A) : option A :=
  match s with
  | c :: s' =>
      if p c then
        match star p s' (S i) k with
        | Some r => Some r
        | None => k s i
        end
      else k s i
  | [] => k s i
  end.

(** [run r s i g k]: match [r] at the front of [s], which is at offset [i];
    [g] is capture group 1 so far and [k] the rest of the match. *)
Fixpoint run (r : re) (s : bytes) (i : nat) (g : option (nat * nat))
    (k : bytes → nat → option (nat * nat) → option A) : option A :=
  match r with
  | Eps => k s i g
  | Char p =>
      match s with
      | c :: s' => if p c then k s' (S i) g else None
      | [] => None
      end
  | Star p => star p s i (λ s' i', k s' i' g)
  | Plus p =>
      match s with
      | c :: s' => if p c then star p s' (S i) (λ s' i', k s' i' g) else None
      | [] => None
      end
  | Cat r1 r2 => run r1 s i g (λ s1 i1 g1, run r2 s1 i1 g1 k)
  | Group r1 => run r1 s i g (λ s1 i1 _, k s1 i1 (Some (i, i1)))
  end.
End Run.

(** The match of [r] that starts exactly at the front of [s]. *)
Definition match_here (r : re) (s : bytes) (i : nat) : option span :=
  run r s i None (λ _ e g, Some (mkSpan i e g)).

(** The leftmost match in [s], which is at offset [i]. *)
Fixpoint find_from (r : re) (s : bytes) (i : nat) : option span :=
  match match_here r s i with
  | Some m => Some m
  | None =>
      match s with
      | [] => None
      | _ :: s' => find_from r s' (S i)
      end
  end.

(** [re.doExecute(..., pos, ...)]: the leftmost match at or after [pos]. *)
Definition doExecute (r : re) (src : bytes) (pos : nat) : option span :=
  find_from r (drop pos src) pos.

(** [re.FindIndex(b)]. *)
Definition FindIndex (r : re) (b : bytes) : option (Z * Z) :=
  (λ m, (Z.of_nat (m_lo m), Z.of_nat (m_hi m))) <$> doExecute r b 0.

(** A replacement template after parsing: literal text and [$1]. *)
Inductive titem :=
| TLit (b : bytes)
| TGroup1.

Definition subslice (src : bytes) (lo hi : nat) : bytes :=
  take (hi - lo) (drop lo src).

(** [re.expand]: an unmatched group expands to nothing. *)
Fixpoint expand (t : list titem) (src : bytes) (m : span) : bytes :=
  match t with
  | [] => []
  | TLit b :: t' => b ++ expand t' src m
  | TGroup1 :: t' =>
      match m_group m with
      | Some (lo, hi) => subslice src lo hi ++ expand t' src m
      | None => expand t' src m
      end
  end.

(** The loop of [re.replaceAll]: [lastMatchEnd] is the end of the most
    recent match, [searchPos] the offset the next search starts at.  Every
    turn moves [searchPos] forward, so [S (length src)] turns are enough
    (see [replaceAll_fuel]). *)
Fixpoint replaceAll_loop (fuel : nat) (r : re) (src : bytes)
    (repl : list titem) (lastMatchEnd searchPos : nat) (buf : bytes) : bytes :=
  match fuel with
  | O => buf ++ drop lastMatchEnd src
  | S fuel' =>
      if (searchPos <=? length src)%nat then
        match doExecute r src searchPos with
        | None => buf ++ drop lastMatchEnd src
        | Some a =>
            let buf := buf ++ subslice src lastMatchEnd (m_lo a) in
            let buf :=
              if (lastMatchEnd <? m_hi a)%nat || (m_lo a =? 0)%nat
              then buf ++ expand repl src a else buf in
            let width := snd (DecodeRune (drop searchPos src)) in
            let searchPos' :=
              if (m_hi a <? searchPos + width)%nat then (searchPos + width)%nat
              else if (m_hi a <? searchPos + 1)%nat then (searchPos + 1)%nat
              else m_hi a in
            replaceAll_loop fuel' r src repl (m_hi a) searchPos' buf
        end
      else buf ++ drop lastMatchEnd src
  end.

(** [re.ReplaceAll(src, repl)]. *)
Definition ReplaceAll (r : re) (src : bytes) (repl : list titem) : bytes :=
  replaceAll_loop (S (length src)) r src repl 0 0 [].

(** [FindAllIndex(b, -1)], all successive matches: not called by the
    package; the reading of every matched span that the highlight sets
    are compared with. *)
Fixpoint findAll_loop (fuel : nat) (r : re) (src : bytes)
    (pos : nat) (prevEnd : option nat) : list (Z * Z) :=
  match fuel with
  | O => []
  | S fuel' =>
      if (pos <=? length src)%nat then
        match doExecute r src pos with
        | None => []
        | Some a =>
            let accept :=
              negb ((m_hi a =? pos)%nat &&
                    bool_decide (prevEnd = Some (m_lo a))) in
            let width := snd (DecodeRune (drop pos src)) in
            let pos' :=
              if (m_hi a =? pos)%nat
              then (if (0 <? width)%nat then pos + width else length src + 1)%nat
              else m_hi a in
            let rest := findAll_loop fuel' r src pos' (Some (m_hi a)) in
            if accept then (Z.of_nat (m_lo a), Z.of_nat (m_hi a)) :: rest
            else rest
        end
      else []
  end.

Definition FindAllIndex (r : re) (b : bytes) : list (Z * Z) :=
  findAll_loop (S (length b)) r b 0 None.

End Rx.

(** ** The escape pattern

    [escPattern] is compiled from: an opening bracket, one or more bytes of
    the class below, any number of further opening brackets (up to here
    capture group 1), then a closing bracket. *)

Definition is_byte (c : byte) : byte → bool := Byte.eqb c.

(** The class of [escPattern]: a-z, A-Z, 0-9, underscore, comma, semicolon,
    colon, space, hyphen, full stop, double quote (byte 0x22) and hash. *)
Definition esc_class (c : byte) : bool :=
  in_range 97 122 c || in_range 65 90 c || in_range 48 57 c ||
  is_byte "_" c || is_byte "," c || is_byte ";" c || is_byte ":" c ||
  is_byte " " c || is_byte "-" c || is_byte "." c || is_byte x22 c ||
  is_byte "#" c.

Global Arguments is_byte : simpl never.
Global Arguments esc_class : simpl never.

Definition escPattern : Rx.re :=
  Rx.Cat
    (Rx.Group
       (Rx.Cat (Rx.Char (is_byte "["))
          (Rx.Cat (Rx.Plus esc_class) (Rx.Star (is_byte "[")))))
    (Rx.Char (is_byte "]")).

(** [matcher], the template $1[]: group 1, then the bytes of an empty
    bracket pair. *)
Definition matcher : list Rx.titem := [Rx.TGroup1; Rx.TLit (to_bytes "[]")].

Definition escape (b : bytes) : bytes := Rx.ReplaceAll escPattern b matcher.

(** The match of [escPattern] at the front of a text, read off as an
    automaton: [in_class] runs over the class bytes after the opening
    bracket, [in_brackets] over the further opening brackets up to the
    closing one; [n] counts the bytes read and the result is the length of
    the match.  [match_here_escPattern] relates it to the matcher. *)
Fixpoint in_brackets (s : bytes) (n : nat) : option nat :=
  match s with
  | c :: s' =>
      if is_byte "[" c then in_brackets s' (S n)
      else if is_byte "]" c then Some (S n)
      else None
  | [] => None
  end.

Fixpoint in_class (s : bytes) (n : nat) : option nat :=
  match s with
  | c :: s' => if esc_class c then in_class s' (S n) else in_brackets s n
  | [] => None
  end.

Definition esc_match (s : bytes) : option nat :=
  match s with
  | c0 :: c1 :: s' =>
      if is_byte "[" c0 && esc_class c1 then in_class s' 2 else None
  | _ => None
  end.

(** The span of a match of length [m] at offset [i], and the last step of
    the matcher, which reads the closing bracket at offset [j]. *)
Definition esc_span (i m : nat) : Rx.span :=
  Rx.mkSpan i (i + m) (Some (i, (i + m - 1)%nat)).

Definition close_k (i : nat) (s : bytes) (j : nat) : option Rx.span :=
  match s with
  | [] => None
  | c :: _ =>
      if is_byte "]" c then Some (Rx.mkSpan i (S j) (Some (i, j))) else None
  end.

(** The escape pass as one walk over the text: [inside] is the number of
    bytes of the current match still to copy, and an opening bracket goes in
    front of its last byte, the closing bracket.  [escape_walk] relates it
    to [escape]. *)
Fixpoint esc_walk (inside : nat) (s : bytes) : bytes :=
  match s with
  | [] => []
  | c :: s' =>
      match inside with
      | O =>
          match esc_match s with
          | Some n => c :: esc_walk (n - 1) s'
          | None => c :: esc_walk 0 s'
          end
      | 1%nat => "["%byte :: "]"%byte :: esc_walk 0 s'
      | S k => c :: esc_walk k s'
      end
  end.


(** ** Collaborators

    The package calls into code that is not part of it; each collaborator is
    an interface here, and the functions below are stated over any
    implementation of it. *)

(** [color.ANSIColorize(text, c)]. *)
Class Colorizer := {
  ANSIColorize : string → Z → string
}.

(** The selectors of the query language: [IsFuzzySelector],
    [IsInverseSelector] and [strings.TrimSpace]. *)
Class Selectors := {
  IsFuzzySelector : string → bool;
  IsInverseSelector : string → bool;
  TrimSpace : string → string
}.

(** The [regexp] package on the patterns a user types: [regexp.Compile] and
    [Regexp.FindIndex], whose result is [nil] or the two-element slice
    [[start, end]] of the leftmost match. *)
Class Regexp := {
  regexp : Type;
  rx_error : Type;
  Compile : string → regexp + rx_error;
  FindIndex : regexp → bytes → option (Z * Z)
}.

(** [fuzzy.Find(pattern, data)] and its [Match] results. *)
Record FuzzyMatch := mkFuzzyMatch {
  Index : Z;
  MatchedIndexes : list Z
}.

Class Fuzzy := {
  fuzzy_Find : string → list string → list FuzzyMatch
}.

(** [zappretty.PrettyLine(line, b)]: the pretty line or an error. *)
Class ZapPretty := {
  pretty_error : Type;
  PrettyLine : string → bool → string + pretty_error
}.

(** The global source of [math/rand]: [rand.Intn(n)] reads and advances
    it. *)
Class Rand := {
  rng : Type;
  Intn : Z → rng → Z * rng
}.

(** ** Log modifiers *)

(** The interface [LogModifier]. *)
Record LogModifier := mkLogModifier {
  Modify : bytes → bytes
}.

(** [ZapPrettyLogModifier.Modify]. *)
Definition ZapPretty_Modify `{ZapPretty} (line : bytes) : bytes :=
  let l := to_string line in
  match PrettyLine l true with
  | inr _ => line
  | inl pretty => to_bytes pretty
  end.

Definition NewZapPrettyLogModifier `{ZapPretty} : LogModifier :=
  {| Modify := ZapPretty_Modify |}.

(** The registry [logModifiers]: a value of interface type may be [nil],
    which is [None] here, and a name that is not a key reads as [nil]. *)
Abbreviation registry := (gmap string (option LogModifier)).

Definition RegisterLogModifier (name : string) (modifier : option LogModifier)
    (logModifiers : registry) : registry :=
  <[name := modifier]> logModifiers.

(** [logModifiers[name]]. *)
Definition registry_get (logModifiers : registry) (name : string)
    : option LogModifier :=
  default None (logModifiers !! name).

(** The registry after [init]. *)
Definition init `{ZapPretty} : registry :=
  RegisterLogModifier "zap-pretty" (Some NewZapPrettyLogModifier) ∅.

(** ** LogItem *)

Record LogItem := mkLogItem {
  Pod : string;
  Container : string;
  Timestamp : string;
  SingleContainer : bool;
  Bytes : bytes
}.

(** [NewLogItem]: the zero [LogItem] with [Timestamp] and [Bytes] set from the
    columns of [b[:len(b)-1]]. *)
Definition NewLogItem (b : bytes) : option LogItem :=
  line ← slice_to b (len b - 1);
  let cols := Split line space in
  c0 ← index cols 0;
  rest ← slice_from cols 1;
  Some {| Pod := ""; Container := ""; Timestamp := to_string c0;
          SingleContainer := false; Bytes := Join rest [space] |}.

Definition ID (l : LogItem) : string :=
  if decide (Pod l ≠ "") then Pod l else Container l.

Definition IsEmpty (l : LogItem) : bool := (len (Bytes l) =? 0).

(** The loop [for i := len(t); i < 30; i++ { t += " " }], by the number of
    turns it makes. *)
Fixpoint pad_loop (turns : nat) (t : string) : string :=
  match turns with
  | O => t
  | S n => pad_loop n (t ++ " ")%string
  end.

Definition pad30 (t : string) : string :=
  pad_loop (Z.to_nat (30 - str_len t)) t.

Section Render.
Context `{Colorizer}.

(** The line [Render] assembles before it looks the modifier up. *)
Definition assemble (l : LogItem) (paint : Z) (showTime : bool) : bytes :=
  let bb := [] in
  let bb :=
    if showTime then
      let t := pad30 (Timestamp l) in
      (bb ++ to_bytes (ANSIColorize t 106)) ++ [space]
    else bb in
  let bb :=
    if decide (Pod l ≠ "") then
      (bb ++ to_bytes (ANSIColorize (Pod l) paint)) ++ [":"%byte]
    else bb in
  let bb :=
    if negb (SingleContainer l) && bool_decide (Container l ≠ "") then
      (bb ++ to_bytes (ANSIColorize (Container l) paint)) ++ [space]
    else bb in
  bb ++ escape (Bytes l).

(** [LogItem.Render]. *)
Definition Render (logModifiers : registry) (l : LogItem) (paint : Z)
    (showTime : bool) (modifier : string) : bytes :=
  let line := assemble l paint showTime in
  match registry_get logModifiers modifier with
  | Some logModifier => Modify logModifier line
  | None => line
  end.

(** [LogItems.Lines] and [LogItems.StrLines]. *)
Definition Lines (logModifiers : registry) (l : list LogItem)
    (showTime : bool) (modifier : string) : list bytes :=
  map (λ item, Render logModifiers item 0 showTime modifier) l.

Definition StrLines (logModifiers : registry) (l : list LogItem)
    (showTime : bool) (modifier : string) : list string :=
  map (λ item, to_string (Render logModifiers item 0 showTime modifier)) l.

End Render.

(** ** colorFor *)

Definition rune_sum (n : string) : Z :=
  fold_left (λ sum r, int_add sum r) (runes n) 0.

(** The sum of the code points of [n] as a number, without the wrap-around
    of [int]. *)
Definition code_point_sum (n : string) : Z := foldr Z.add 0 (runes n).

(** [colorFor], in the state of the random source. *)
Definition colorFor `{Rand} (n : string) (g : rng) : Z * rng :=
  let sum := rune_sum n in
  let c := Z.rem sum 256 in
  if c =? 0 then
    let '(k, g') := Intn 10 g in (int_add 207 k, g')
  else (c, g).

(** ** Filtering *)

(** The inclusive-exclusive run [lo, lo+1, ..., hi-1] that
    [for j := lo; j < hi; j++ { ii = append(ii, j) }] appends. *)
Definition span_positions (lo hi : Z) : list Z := seqZ lo (hi - lo).

(** The loop [for i := 0; i < len(locs); i += 2] over the flat slice
    [locs]: reading [locs[i+1]] past the end panics. *)
Fixpoint span_loop (locs : list Z) (ii : list Z) : option (list Z) :=
  match locs with
  | [] => Some ii
  | [_] => None
  | lo :: hi :: locs' => span_loop locs' (ii ++ span_positions lo hi)
  end.

(** The [[]int] that [FindIndex] returns. *)
Definition locs_slice (locs : option (Z * Z)) : list Z :=
  match locs with
  | None => []
  | Some (lo, hi) => [lo; hi]
  end.

(** What [Filter] and [filterLogs] return: matches, indices and an error. *)
Abbreviation filtered E := (list Z * list (list Z) * option E)%type.

Section Filter.
Context `{Colorizer, Selectors, Regexp, Fuzzy}.

(** The loop of [filterLogs] over the rendered lines, [i] being the index of
    the line at the front. *)
Fixpoint filter_loop (rx : regexp) (invert : bool) (i : Z)
    (lines : list bytes) (matches : list Z) (indices : list (list Z))
    : option (list Z * list (list Z)) :=
  match lines with
  | [] => Some (matches, indices)
  | line :: lines' =>
      let locs := FindIndex rx line in
      if bool_decide (locs ≠ None) && invert then
        filter_loop rx invert (i + 1) lines' matches indices
      else if bool_decide (locs = None) && negb invert then
        filter_loop rx invert (i + 1) lines' matches indices
      else
        ii ← span_loop (locs_slice locs) [];
        filter_loop rx invert (i + 1) lines' (matches ++ [i]) (indices ++ [ii])
  end.

(** The head of [filterLogs]: [invert] and the query without its inverse
    sentinel ([q[1:]] panics on the empty string). *)
Definition strip_inverse (q : string) : option (bool * string) :=
  if IsInverseSelector q
  then q' ← str_slice_from q 1; Some (true, q')
  else Some (false, q).

(** [LogItems.filterLogs]. *)
Definition filterLogs (logModifiers : registry) (l : list LogItem)
    (q : string) (showTime : bool) (modifier : string)
    : option (filtered rx_error) :=
  '(invert, q) ← strip_inverse q;
  match Compile ("(?i)" ++ q)%string with
  | inr err => Some ([], [], Some err)
  | inl rx =>
      '(matches, indices) ←
        filter_loop rx invert 0 (Lines logModifiers l showTime modifier) [] [];
      Some (matches, indices, None)
  end.

(** [LogItems.fuzzyFilter]. *)
Definition fuzzyFilter (logModifiers : registry) (l : list LogItem)
    (q : string) (showTime : bool) (modifier : string)
    : list Z * list (list Z) :=
  let q := TrimSpace q in
  let mm := fuzzy_Find q (StrLines logModifiers l showTime modifier) in
  (map Index mm, map MatchedIndexes mm).

(** [LogItems.Filter]; the log record it writes on an error is not
    modelled. *)
Definition Filter (logModifiers : registry) (l : list LogItem)
    (q : string) (showTime : bool) (modifier : string)
    : option (filtered rx_error) :=
  if decide (q = "") then Some ([], [], None)
  else if IsFuzzySelector q then
    q2 ← str_slice_from q 2;
    let '(mm, ii) :=
      fuzzyFilter logModifiers l (TrimSpace q2) showTime modifier in
    Some (mm, ii, None)
  else
    '(matches, indices, err) ← filterLogs logModifiers l q showTime modifier;
    match err with
    | Some e => Some ([], [], Some e)
    | None => Some (matches, indices, None)
    end.

(** The lines the loop keeps, with their indices, and the highlight set of
    a kept line, stated apart from the loop. *)
Definition keeps (rx : regexp) (invert : bool) (line : bytes) : bool :=
  if invert then bool_decide (FindIndex rx line = None)
  else bool_decide (FindIndex rx line ≠ None).

Definition highlight (rx : regexp) (line : bytes) : list Z :=
  match FindIndex rx line with
  | Some (lo, hi) => span_positions lo hi
  | None => []
  end.

Fixpoint kept_from (rx : regexp) (invert : bool) (i : Z) (lines : list bytes)
    : list (Z * bytes) :=
  match lines with
  | [] => []
  | line :: lines' =>
      if keeps rx invert line
      then (i, line) :: kept_from rx invert (i + 1) lines'
      else kept_from rx invert (i + 1) lines'
  end.

End Filter.

(** The positions covered by every span of a list of matched spans. *)
Definition all_span_positions (spans : list (Z * Z)) : list Z :=
  flat_map (λ '(lo, hi), span_positions lo hi) spans.

(** ** Implementations of the collaborators

    Small implementations of the interfaces above, on which the functions of
    the package can be evaluated. *)
Module Sample.

(** Colouring that wraps the text in a marker of the colour's parity. *)
Definition colorizer : Colorizer :=
  {| ANSIColorize text c :=
       ((if Z.even c then "<" else "{") ++ text ++ ">")%string |}.

(** The sentinels of the query language: a leading -f selects the fuzzy
    filter, a leading exclamation mark the inverse one. *)
Definition is_space (c : byte) : bool :=
  is_byte " " c || in_range 9 13 c.

Fixpoint trim_left (b : bytes) : bytes :=
  match b with
  | c :: b' => if is_space c then trim_left b' else b
  | [] => []
  end.

Definition trim (b : bytes) : bytes :=
  reverse (trim_left (reverse (trim_left b))).

Definition selectors : Selectors :=
  {| IsFuzzySelector q := String.prefix "-f" q;
     IsInverseSelector q := String.prefix "!" q;
     TrimSpace q := to_string (trim (to_bytes q)) |}.

(** Case-insensitive literal patterns: the flag group (?i) followed by
    digits, spaces and letters other than k and s (whose case folding
    leaves ASCII).  On these patterns and ASCII lines the matches are those
    of the [regexp] package; this implementation refuses every other
    pattern, among them the ones the package refuses. *)
Definition fold_val (c : byte) : Z :=
  if in_range 65 90 c then byte_val c + 32 else byte_val c.

Definition fold_eq (c b : byte) : bool := fold_val c =? fold_val b.

Definition literal_byte (c : byte) : bool :=
  (in_range 97 122 c || in_range 65 90 c || in_range 48 57 c ||
   is_byte " " c) &&
  negb (fold_val c =? 107) && negb (fold_val c =? 115).

Definition literal (w : bytes) : Rx.re :=
  foldr (λ c r, Rx.Cat (Rx.Char (fold_eq c)) r) Rx.Eps w.

Definition compile (p : string) : Rx.re + string :=
  if String.prefix "(?i)" p then
    let w := drop 4 (to_bytes p) in
    if forallb literal_byte w then inl (literal w)
    else inr "error parsing regexp"%string
  else inr "error parsing regexp"%string.

Definition regexps : Regexp :=
  {| regexp := Rx.re; rx_error := string;
     Compile := compile; FindIndex := Rx.FindIndex |}.

(** A finder that reports the candidates equal to the pattern. *)
Fixpoint find_equal (pattern : string) (i : Z) (data : list string)
    : list FuzzyMatch :=
  match data with
  | [] => []
  | d :: data' =>
      if String.eqb pattern d
      then mkFuzzyMatch i (seqZ 0 (str_len d)) :: find_equal pattern (i + 1) data'
      else find_equal pattern (i + 1) data'
  end.

Definition fuzzy : Fuzzy := {| fuzzy_Find pattern data := find_equal pattern 0 data |}.

(** A pretty-printer that accepts the lines that open a brace. *)
Definition zappretty : ZapPretty :=
  {| pretty_error := string;
     PrettyLine l _ :=
       if String.prefix "{" l then inl ("zap " ++ l)%string
       else inr "not a zap line"%string |}.

(** A counter as random source. *)
Definition rand : Rand :=
  {| rng := Z; Intn n g := (g mod n, g + 1) |}.

End Sample.

(** ** The rest of the package *)

(** [NewLogItemFromString]; [now] is what [time.Now().String()] returns at
    the call. *)
Definition NewLogItemFromString (now : string) (s : string) : LogItem :=
  {| Pod := ""; Container := ""; Timestamp := now;
     SingleContainer := false; Bytes := to_bytes s |}.

(** [ll[i] = v]: panics when [i] is out of range. *)
Definition store_at {A} (ll : list A) (i : nat) (v : A) : option (list A) :=
  if (i <? length ll)%nat then Some (<[i := v]> ll) else None.

Section RenderAll.
Context `{Colorizer, Rand}.

(** The loop of [LogItems.Render]: [i] is the index of the item at the
    front, [colors] the colour map so far, [g] the random source. *)
Fixpoint render_loop (logModifiers : registry) (showTime : bool)
    (modifier : string) (items : list LogItem) (i : nat)
    (colors : gmap string Z) (ll : list bytes) (g : rng)
    : option (list bytes * gmap string Z * rng) :=
  match items with
  | [] => Some (ll, colors, g)
  | item :: items' =>
      let info := ID item in
      let '(color, colors, g) :=
        match colors !! info with
        | Some color => (color, colors, g)
        | None =>
            let '(color, g) := colorFor info g in
            (color, <[info := color]> colors, g)
        end in
      ll ← store_at ll i (Render logModifiers item color showTime modifier);
      render_loop logModifiers showTime modifier items' (S i) colors ll g
  end.

(** [LogItems.Render]: the buffer [ll] after the call, and the random
    source. *)
Definition LogItems_Render (logModifiers : registry) (l : list LogItem)
    (showTime : bool) (modifier : string) (ll : list bytes) (g : rng)
    : option (list bytes * rng) :=
  '(ll, _, g) ← render_loop logModifiers showTime modifier l 0 ∅ ll g;
  Some (ll, g).

End RenderAll.

(** [LogItem.Clone] copies the bytes into a buffer of its own.  To say so,
    buffers live in a store, by address, and an item holds the address of
    its buffer (a slice stands for its whole buffer: the package never
    re-slices [Bytes]). *)
Module Heap.

Record LogItemAt := mkLogItemAt {
  aPod : string;
  aContainer : string;
  aTimestamp : string;
  aSingleContainer : bool;
  aBytes : positive
}.

(** [make([]byte, n)]: a new buffer of [n] zero bytes. *)
Definition make (n : nat) (σ : gmap positive bytes)
    : positive * gmap positive bytes :=
  let a := fresh (dom σ) in (a, <[a := replicate n x00]> σ).

(** [copy(dst, src)]: [src] over the front of [dst], as far as both reach. *)
Definition copy (dst src : bytes) : bytes :=
  take (length dst) src ++ drop (length src) dst.

(** [LogItem.Clone]. *)
Definition Clone (l : LogItemAt) (σ : gmap positive bytes)
    : option (LogItemAt * gmap positive bytes) :=
  src ← σ !! aBytes l;
  let '(a, σ) := make (length src) σ in
  dst ← σ !! a;
  let σ := <[a := copy dst src]> σ in
  Some ({| aPod := aPod l; aContainer := aContainer l;
           aTimestamp := aTimestamp l;
           aSingleContainer := aSingleContainer l; aBytes := a |}, σ).

(** The item at an address-holding item. *)
Definition load (σ : gmap positive bytes) (l : LogItemAt) : option LogItem :=
  b ← σ !! aBytes l;
  Some (mkLogItem (aPod l) (aContainer l) (aTimestamp l)
          (aSingleContainer l) b).

(** The write [l.Bytes[i] = c]. *)
Definition poke (l : LogItemAt) (i : nat) (c : byte) (σ : gmap positive bytes)
    : option (gmap positive bytes) :=
  b ← σ !! aBytes l;
  if (i <? length b)%nat then Some (<[aBytes l := <[i := c]> b]> σ) else None.

End Heap.

(** The flat slice of a list of spans. *)
Definition flat_spans (spans : list (Z * Z)) : list Z :=
  flat_map (λ '(lo, hi), [lo; hi]) spans.

(** * Properties *)

(** ** Slices, [Split] and [Join] *)

Lemma len_app {A} (a b : list A) : len (a ++ b) = len a + len b.
Proof. unfold len. rewrite length_app. lia. Qed.

Lemma slice_to_snoc {A} (s : list A) (c : A) :
  slice_to (s ++ [c]) (len (s ++ [c]) - 1) = Some s.
Proof.
  unfold slice_to. rewrite len_app.
  replace (len s + len [c] - 1) with (len s) by (unfold len; simpl; lia).
  assert (Htake : take (Z.to_nat (len s)) (s ++ [c]) = s)
    by (unfold len; rewrite Nat2Z.id; apply take_app_length).
  rewrite Htake.
  destruct (Z.leb_spec 0 (len s)); [| unfold len in *; lia].
  destruct (Z.leb_spec (len s) (len s + len [c]));
    [| unfold len in *; simpl in *; lia].
  reflexivity.
Qed.

Lemma slice_to_nil {A} : slice_to (@nil A) (len (@nil A) - 1) = None.
Proof. reflexivity. Qed.

Lemma Split_cons (s : bytes) (sep : byte) :
  ∃ w ws, Split s sep = w :: ws.
Proof.
  induction s as [|c s [w [ws IH]]]; simpl; [by eauto |].
  destruct (Byte.eqb c sep); [by eauto |]. rewrite IH. eauto.
Qed.

Lemma byte_eqb_false (c sep : byte) : c ≠ sep → Byte.eqb c sep = false.
Proof.
  intros Hne. destruct (Byte.eqb c sep) eqn:E; [| done].
  apply Byte.byte_dec_bl in E. done.
Qed.

Lemma byte_eqb_true (c sep : byte) : Byte.eqb c sep = true → c = sep.
Proof. apply Byte.byte_dec_bl. Qed.

Lemma byte_eqb_refl (c : byte) : Byte.eqb c c = true.
Proof. by apply Byte.byte_dec_lb. Qed.

(** Without a separator there is one piece, the input itself. *)
Lemma Split_no_sep (s : bytes) (sep : byte) :
  sep ∉ s → Split s sep = [s].
Proof.
  induction s as [|c s IH]; intros Hnot; simpl; [done |].
  rewrite byte_eqb_false by (intros ->; apply Hnot; left).
  rewrite IH; [done |]. intros Hin. apply Hnot. by right.
Qed.

(** The first piece ends at the first separator. *)
Lemma Split_app_sep (a b : bytes) (sep : byte) :
  sep ∉ a → Split (a ++ sep :: b) sep = a :: Split b sep.
Proof.
  induction a as [|c a IH]; intros Hnot; simpl.
  - by rewrite byte_eqb_refl.
  - rewrite byte_eqb_false by (intros ->; apply Hnot; left).
    rewrite IH; [done |]. intros Hin. apply Hnot. by right.
Qed.

(** Joining the pieces with the separator gives the input back. *)
Lemma Join_Split (s : bytes) (sep : byte) :
  Join (Split s sep) [sep] = s.
Proof.
  induction s as [|c s IH]; simpl; [done |].
  destruct (Byte.eqb c sep) eqn:E.
  - apply byte_eqb_true in E as ->.
    destruct (Split_cons s sep) as (w & ws & Hs). rewrite Hs in *.
    simpl. by rewrite <- IH.
  - destruct (Split_cons s sep) as (w & ws & Hs). rewrite Hs in *.
    rewrite <- IH. destruct ws; reflexivity.
Qed.

Lemma to_string_to_bytes (s : string) : to_string (to_bytes s) = s.
Proof. apply string_of_list_byte_of_string. Qed.

Lemma to_bytes_to_string (b : bytes) : to_bytes (to_string b) = b.
Proof. apply list_byte_of_string_of_list_byte. Qed.

(** ** NewLogItem *)

(** What [NewLogItem] returns on a non-empty input: the last byte is cut
    off, whatever it is, and the columns of the rest are used. *)
Lemma NewLogItem_snoc (content : bytes) (c : byte) :
  NewLogItem (content ++ [c]) =
  Some {| Pod := ""; Container := "";
          Timestamp := to_string (hd [] (Split content space));
          SingleContainer := false;
          Bytes := Join (tl (Split content space)) [space] |}.
Proof.
  unfold NewLogItem. rewrite slice_to_snoc. simpl.
  destruct (Split_cons content space) as (w & ws & Hs). rewrite Hs.
  unfold index, slice_from. simpl.
  destruct (Z.leb_spec 1 (len (w :: ws)));
    [| unfold len in *; simpl in *; lia].
  reflexivity.
Qed.

(** C3: parsing the raw line "TS msg1 msg2\n" yields Timestamp "TS" and
    Bytes "msg1 msg2"; more generally the first token is the timestamp and
    the rest of the line, with its single spaces, the message; and a raw
    content without a space is absorbed whole into Timestamp, Bytes is
    empty, and there is no error. *)
Theorem NewLogItem_parse :
  NewLogItem (to_bytes "TS msg1 msg2" ++ [newline]) =
    Some (mkLogItem "" "" "TS" false (to_bytes "msg1 msg2")) ∧
  (∀ ts msg : bytes, space ∉ ts →
     NewLogItem (ts ++ space :: msg ++ [newline]) =
       Some (mkLogItem "" "" (to_string ts) false msg)) ∧
  (∀ content : bytes, space ∉ content →
     NewLogItem (content ++ [newline]) =
       Some (mkLogItem "" "" (to_string content) false [])).
Proof.
  split; [reflexivity |]. split.
  - intros ts msg Hts.
    replace (ts ++ space :: msg ++ [newline])
      with ((ts ++ space :: msg) ++ [newline])
      by (rewrite <- app_assoc; reflexivity).
    rewrite NewLogItem_snoc, Split_app_sep by done. simpl.
    by rewrite Join_Split.
  - intros content Hc.
    rewrite NewLogItem_snoc, Split_no_sep by done. reflexivity.
Qed.

Lemma NewLogItem_parse_witness :
  (space ∉ to_bytes "2024-01-02T03:04:05Z") ∧
  NewLogItem (to_bytes "2024-01-02T03:04:05Z" ++ space :: to_bytes "a  b" ++ [newline]) =
    Some (mkLogItem "" "" "2024-01-02T03:04:05Z" false (to_bytes "a  b")) ∧
  NewLogItem (to_bytes "2024-01-02T03:04:05Z" ++ [newline]) =
    Some (mkLogItem "" "" "2024-01-02T03:04:05Z" false []).
Proof.
  assert (Hn : space ∉ to_bytes "2024-01-02T03:04:05Z").
  { intros Hin. apply list_elem_of_In in Hin. vm_compute in Hin.
    repeat (destruct Hin as [Hin | Hin]; [discriminate Hin |]). exact Hin. }
  split; [exact Hn |]. split.
  - exact (proj1 (proj2 NewLogItem_parse) _ (to_bytes "a  b") Hn).
  - exact (proj2 (proj2 NewLogItem_parse) _ Hn).
Defined.

(** C10: NewLogItem panics on the empty input (the slice b[:len(b)-1] is
    out of range) and returns an item on every other input; it removes
    exactly the last byte, newline or not, before it splits on spaces. *)
Theorem NewLogItem_total_iff_nonempty :
  NewLogItem [] = None ∧
  (∀ b : bytes, b ≠ [] → is_Some (NewLogItem b)) ∧
  (∀ (content : bytes) (c : byte),
     NewLogItem (content ++ [c]) =
       Some (mkLogItem "" "" (to_string (hd [] (Split content space))) false
               (Join (tl (Split content space)) [space])) ∧
     NewLogItem (content ++ [c]) = NewLogItem (content ++ [newline])).
Proof.
  split; [reflexivity |]. split.
  - intros b Hb. destruct (exists_last Hb) as (content & c & ->).
    rewrite NewLogItem_snoc. eauto.
  - intros content c. by rewrite !NewLogItem_snoc.
Qed.

Lemma NewLogItem_total_iff_nonempty_witness :
  to_bytes "TS msgX" ≠ [] ∧ is_Some (NewLogItem (to_bytes "TS msgX")).
Proof.
  assert (Hne : to_bytes "TS msgX" ≠ []) by (vm_compute; discriminate).
  split; [exact Hne |].
  exact (proj1 (proj2 NewLogItem_total_iff_nonempty) _ Hne).
Defined.

(** ** Render and the modifier registry *)

Section RenderFacts.
Context `{Colorizer}.

Lemma registry_get_register (logModifiers : registry) (name : string)
    (m : option LogModifier) :
  registry_get (RegisterLogModifier name m logModifiers) name = m.
Proof.
  unfold registry_get, RegisterLogModifier. by rewrite lookup_insert_eq.
Qed.

Lemma registry_get_register_ne (logModifiers : registry) (name other : string)
    (m : option LogModifier) :
  name ≠ other →
  registry_get (RegisterLogModifier name m logModifiers) other =
  registry_get logModifiers other.
Proof.
  intros Hne. unfold registry_get, RegisterLogModifier.
  by rewrite lookup_insert_ne.
Qed.

(** Without the timestamp column the assembled line does not read
    [Timestamp]. *)
Lemma assemble_no_time (pod container t t' : string) (single : bool)
    (b : bytes) (paint : Z) :
  assemble (mkLogItem pod container t single b) paint false =
  assemble (mkLogItem pod container t' single b) paint false.
Proof. reflexivity. Qed.

(** C8: with showTimestamp false, Render writes no timestamp column: two
    records that differ only in Timestamp render to the same bytes, for
    every registry, colour code and modifier name. *)
Theorem Render_no_timestamp (logModifiers : registry)
    (pod container t t' : string) (single : bool) (b : bytes)
    (paint : Z) (modifier : string) :
  Render logModifiers (mkLogItem pod container t single b) paint false modifier =
  Render logModifiers (mkLogItem pod container t' single b) paint false modifier
  ∧
  assemble (mkLogItem pod container t single b) paint false =
    (if decide (pod ≠ "")
     then to_bytes (ANSIColorize pod paint) ++ [":"%byte] else []) ++
    (if negb single && bool_decide (container ≠ "")
     then to_bytes (ANSIColorize container paint) ++ [space] else []) ++
    escape b.
Proof.
  split.
  - unfold Render. by rewrite (assemble_no_time pod container t t').
  - unfold assemble; simpl.
    destruct (decide (pod ≠ "")), (negb single && bool_decide (container ≠ ""));
      simpl; by rewrite <- ?app_assoc.
Qed.

(** C6: after a modifier is registered under a name, Render with that name
    returns the modifier's output on the assembled line; with a name that is
    not in the registry, Render returns the assembled line unchanged. *)
Theorem Render_modifier (logModifiers : registry) (l : LogItem) (paint : Z)
    (showTime : bool) (name : string) :
  (∀ m : LogModifier,
     Render (RegisterLogModifier name (Some m) logModifiers)
       l paint showTime name =
     Modify m (assemble l paint showTime)) ∧
  (logModifiers !! name = None →
     Render logModifiers l paint showTime name = assemble l paint showTime).
Proof.
  split.
  - intros m. unfold Render. by rewrite registry_get_register.
  - intros Hnone. unfold Render, registry_get. by rewrite Hnone.
Qed.

End RenderFacts.

Lemma Render_modifier_witness :
  (@init Sample.zappretty) !! "upper"%string = None ∧
  @Render Sample.colorizer (@init Sample.zappretty)
    (mkLogItem "p" "c" "ts" false (to_bytes "[warn] x")) 3 true "upper" =
  @assemble Sample.colorizer
    (mkLogItem "p" "c" "ts" false (to_bytes "[warn] x")) 3 true.
Proof.
  assert (Hnone : (@init Sample.zappretty) !! "upper"%string = None)
    by (vm_compute; reflexivity).
  split; [exact Hnone |].
  exact (proj2 (@Render_modifier Sample.colorizer _ _ _ _ _) Hnone).
Defined.

(** ** The zap-pretty modifier *)

Section ZapPrettyFacts.
Context `{ZapPretty}.

(** C9: Modify of the zap-pretty modifier is total and fails open: when the
    pretty-printer reports an error, the input bytes come back unchanged and
    no error reaches the caller; otherwise the pretty-printed bytes are
    returned. It is what init registers under the name zap-pretty. *)
Theorem ZapPretty_Modify_fail_open (line : bytes) :
  (∀ e, PrettyLine (to_string line) true = inr e →
     Modify NewZapPrettyLogModifier line = line) ∧
  (∀ pretty, PrettyLine (to_string line) true = inl pretty →
     Modify NewZapPrettyLogModifier line = to_bytes pretty) ∧
  registry_get init "zap-pretty" = Some NewZapPrettyLogModifier.
Proof.
  repeat split.
  - intros e He. simpl. unfold ZapPretty_Modify. by rewrite He.
  - intros pretty Hp. simpl. unfold ZapPretty_Modify. by rewrite Hp.
Qed.

End ZapPrettyFacts.

Lemma ZapPretty_Modify_fail_open_witness :
  @PrettyLine Sample.zappretty (to_string (to_bytes "plain text")) true =
    inr "not a zap line"%string ∧
  Modify (@NewZapPrettyLogModifier Sample.zappretty) (to_bytes "plain text") =
    to_bytes "plain text" ∧
  @PrettyLine Sample.zappretty (to_string (to_bytes "{}")) true =
    inl "zap {}"%string ∧
  Modify (@NewZapPrettyLogModifier Sample.zappretty) (to_bytes "{}") =
    to_bytes "zap {}".
Proof.
  assert (He : @PrettyLine Sample.zappretty
                 (to_string (to_bytes "plain text")) true =
               inr "not a zap line"%string) by reflexivity.
  assert (Hp : @PrettyLine Sample.zappretty (to_string (to_bytes "{}")) true =
               inl "zap {}"%string) by reflexivity.
  split; [exact He |]. split.
  - exact (proj1 (@ZapPretty_Modify_fail_open Sample.zappretty _) _ He).
  - split; [exact Hp |].
    exact (proj1 (proj2 (@ZapPretty_Modify_fail_open Sample.zappretty _)) _ Hp).
Defined.

(** ** Filtering *)

Section FilterFacts.
Context `{Colorizer, Selectors, Regexp, Fuzzy}.

Lemma span_loop_locs (locs : option (Z * Z)) :
  span_loop (locs_slice locs) [] =
  Some (match locs with
        | Some (lo, hi) => span_positions lo hi
        | None => []
        end).
Proof.
  by destruct locs as [[lo hi]|].
Qed.

(** The loop never panics; it appends the kept indices, in ascending order,
    and one highlight set for each of them. *)
Lemma filter_loop_kept (rx : regexp) (invert : bool) (lines : list bytes) :
  ∀ (i : Z) (matches : list Z) (indices : list (list Z)),
    filter_loop rx invert i lines matches indices =
    Some (matches ++ (kept_from rx invert i lines).*1,
          indices ++ ((highlight rx ∘ snd) <$> kept_from rx invert i lines)).
Proof.
  induction lines as [|line lines IH]; intros i matches indices; simpl.
  - by rewrite !app_nil_r.
  - unfold keeps, highlight. rewrite span_loop_locs.
    destruct (FindIndex rx line) as [[lo hi]|] eqn:Hlocs, invert; simpl;
      rewrite ?bool_decide_eq_true_2, ?bool_decide_eq_false_2 by naive_solver;
      simpl; rewrite IH; simpl; unfold highlight; rewrite ?Hlocs;
      by rewrite <- ?app_assoc.
Qed.

Lemma keeps_invert (rx : regexp) (line : bytes) :
  keeps rx true line = negb (keeps rx false line).
Proof.
  unfold keeps. destruct (FindIndex rx line); simpl;
    rewrite ?bool_decide_eq_true_2, ?bool_decide_eq_false_2 by naive_solver;
    done.
Qed.

Lemma elem_of_kept_from (rx : regexp) (invert : bool) (lines : list bytes) :
  ∀ (i j : Z),
    j ∈ (kept_from rx invert i lines).*1 ↔
    i ≤ j ∧ ∃ line, lines !! Z.to_nat (j - i) = Some line ∧
                    keeps rx invert line = true.
Proof.
  induction lines as [|line lines IH]; intros i j; simpl.
  - split; [by intros ?%elem_of_nil | by intros (_ & ? & ? & _)].
  - assert (Hrest : (i + 1 ≤ j ∧ ∃ line', lines !! Z.to_nat (j - (i + 1)) = Some line'
                                   ∧ keeps rx invert line' = true) ↔
                    (i < j ∧ ∃ line', (line :: lines) !! Z.to_nat (j - i) = Some line'
                                   ∧ keeps rx invert line' = true)).
    { split; intros (Hle & line' & Hl & Hk); (split; [lia |]); exists line';
        (split; [| done]).
      - replace (Z.to_nat (j - i)) with (S (Z.to_nat (j - (i + 1)))) by lia.
        done.
      - replace (Z.to_nat (j - i)) with (S (Z.to_nat (j - (i + 1)))) in Hl by lia.
        done. }
    destruct (keeps rx invert line) eqn:Hk; simpl.
    + rewrite elem_of_cons, IH, Hrest. split.
      * intros [-> | (Hlt & Hex)]; [| split; [lia | done]].
        split; [lia |]. exists line. by rewrite Z.sub_diag.
      * intros (Hle & Hex). destruct (decide (j = i)) as [-> | Hne]; [by left |].
        right. split; [lia | done].
    + rewrite IH, Hrest. split.
      * intros (Hlt & Hex). split; [lia | done].
      * intros (Hle & line' & Hl & Hk'). destruct (decide (j = i)) as [-> | Hne].
        -- rewrite Z.sub_diag in Hl. simpl in Hl. congruence.
        -- split; [lia |]. eauto.
Qed.

Lemma kept_from_range (rx : regexp) (invert : bool) (lines : list bytes) (j : Z) :
  j ∈ (kept_from rx invert 0 lines).*1 → 0 ≤ j < len lines.
Proof.
  rewrite elem_of_kept_from. intros (Hle & line & Hl & _).
  apply lookup_lt_Some in Hl. unfold len. lia.
Qed.

(** Every index in range is kept by exactly one of the two loops. *)
Lemma kept_from_complement (rx : regexp) (lines : list bytes) (j : Z) :
  j ∈ (kept_from rx true 0 lines).*1 ↔
  0 ≤ j < len lines ∧ j ∉ (kept_from rx false 0 lines).*1.
Proof.
  rewrite !elem_of_kept_from. split.
  - intros (Hle & line & Hl & Hk). split.
    + apply lookup_lt_Some in Hl. unfold len. lia.
    + intros (_ & line' & Hl' & Hk'). rewrite Hl in Hl'. simplify_eq.
      rewrite keeps_invert, Hk' in Hk. done.
  - intros ((Hle & Hlt) & Hnot). split; [done |].
    destruct (lines !! Z.to_nat (j - 0)) as [line|] eqn:Hl.
    + exists line. split; [done |]. rewrite keeps_invert.
      destruct (keeps rx false line) eqn:Hk; [| done].
      exfalso. apply Hnot. split; [done |]. eauto.
    + apply lookup_ge_None in Hl. unfold len in Hlt. lia.
Qed.

Lemma length_Lines (logModifiers : registry) (l : list LogItem)
    (showTime : bool) (modifier : string) :
  len (Lines logModifiers l showTime modifier) = len l.
Proof. unfold Lines, len. by rewrite length_map. Qed.

(** What [filterLogs] returns for a pattern that compiles. *)
Lemma filterLogs_compiled (logModifiers : registry) (l : list LogItem)
    (q p : string) (invert showTime : bool) (modifier : string) (rx : regexp) :
  strip_inverse q = Some (invert, p) →
  Compile ("(?i)" ++ p)%string = inl rx →
  filterLogs logModifiers l q showTime modifier =
  Some ((kept_from rx invert 0 (Lines logModifiers l showTime modifier)).*1,
        (highlight rx ∘ snd) <$>
          kept_from rx invert 0 (Lines logModifiers l showTime modifier),
        None).
Proof.
  intros Hq Hrx. unfold filterLogs. rewrite Hq. simpl. rewrite Hrx.
  rewrite filter_loop_kept. reflexivity.
Qed.

(** C2: for a pattern P that compiles, the matched indices of the inverse
    filter with P are the complement, within the index range of the
    collection, of the matched indices of the plain filter with P: the two
    sets are disjoint and their union is the whole range. *)
Theorem inverse_filter_complement (logModifiers : registry) (l : list LogItem)
    (showTime : bool) (modifier : string) (q_inv q P : string) (rx : regexp) :
  strip_inverse q_inv = Some (true, P) →
  strip_inverse q = Some (false, P) →
  Compile ("(?i)" ++ P)%string = inl rx →
  ∃ (m_inv m : list Z) (i_inv i : list (list Z)),
    filterLogs logModifiers l q_inv showTime modifier = Some (m_inv, i_inv, None) ∧
    filterLogs logModifiers l q showTime modifier = Some (m, i, None) ∧
    let range : gset Z := list_to_set (seqZ 0 (len l)) in
    let inverse : gset Z := list_to_set m_inv in
    let plain : gset Z := list_to_set m in
    inverse = range ∖ plain ∧ inverse ## plain ∧ inverse ∪ plain = range.
Proof.
  intros Hinv Hplain Hrx.
  eexists _, _, _, _.
  split; [by apply (filterLogs_compiled _ _ _ _ _ _ _ _ Hinv Hrx) |].
  split; [by apply (filterLogs_compiled _ _ _ _ _ _ _ _ Hplain Hrx) |].
  set (lines := Lines logModifiers l showTime modifier).
  assert (Hlen : len lines = len l) by apply length_Lines.
  assert (Hc := kept_from_complement rx lines).
  assert (Hr := kept_from_range rx false lines).
  assert (Hseq : ∀ j, j ∈ seqZ 0 (len l) ↔ 0 ≤ j < len l).
  { intros j. rewrite elem_of_seqZ. lia. }
  rewrite Hlen in Hc, Hr. simpl.
  repeat split.
  - apply set_eq. intros j.
    rewrite elem_of_difference, !elem_of_list_to_set, Hc, Hseq. done.
  - apply elem_of_disjoint. intros j.
    rewrite !elem_of_list_to_set, Hc. tauto.
  - apply set_eq. intros j.
    rewrite elem_of_union, !elem_of_list_to_set, Hc, Hseq. split.
    + intros [[? _] | ?]; auto.
    + intros Hj.
      destruct (decide (j ∈ (kept_from rx false 0 lines).*1)); auto.
Qed.

(** C5: Filter with the empty query returns empty matches and highlights and
    no error, for every collection and setting; and when the pattern does
    not compile, filterLogs and Filter return the error of the compilation
    and no results. *)
Theorem Filter_empty_or_invalid (logModifiers : registry) (l : list LogItem)
    (showTime : bool) (modifier : string) :
  Filter logModifiers l "" showTime modifier = Some ([], [], None) ∧
  (∀ (q p : string) (invert : bool) (e : rx_error),
     strip_inverse q = Some (invert, p) →
     Compile ("(?i)" ++ p)%string = inr e →
     filterLogs logModifiers l q showTime modifier = Some ([], [], Some e) ∧
     (q ≠ ""%string → IsFuzzySelector q = false →
      Filter logModifiers l q showTime modifier = Some ([], [], Some e))).
Proof.
  split; [reflexivity |].
  intros q p invert e Hq He.
  assert (Hf : filterLogs logModifiers l q showTime modifier =
               Some ([], [], Some e)).
  { unfold filterLogs. rewrite Hq. simpl. by rewrite He. }
  split; [exact Hf |].
  intros Hne Hfz. unfold Filter.
  destruct (decide (q = ""%string)); [done |].
  rewrite Hfz, Hf. reflexivity.
Qed.

End FilterFacts.

Section HighlightFacts.
Context `{Colorizer, Selectors, Regexp, Fuzzy}.

Lemma kept_from_keeps (rx : regexp) (invert : bool) (lines : list bytes) :
  ∀ (i j : Z) (line : bytes),
    (j, line) ∈ kept_from rx invert i lines → keeps rx invert line = true.
Proof.
  induction lines as [|line' lines IH]; intros i j line; simpl.
  - by intros ?%elem_of_nil.
  - destruct (keeps rx invert line') eqn:Hk.
    + intros [Heq | Hin]%elem_of_cons; [by simplify_eq | by eapply IH].
    + by apply IH.
Qed.

(** X17: the highlight sets [filterLogs] returns: one for each kept line, in the
    order of the matches.  For an inverted query each is empty; otherwise
    each holds the positions of the one span [FindIndex] reports, that of
    the leftmost match. *)
Lemma filterLogs_highlight_sets (logModifiers : registry) (l : list LogItem)
    (q p : string) (invert showTime : bool) (modifier : string) (rx : regexp) :
  strip_inverse q = Some (invert, p) →
  Compile ("(?i)" ++ p)%string = inl rx →
  let kept := kept_from rx invert 0 (Lines logModifiers l showTime modifier) in
  filterLogs logModifiers l q showTime modifier =
    Some (kept.*1, (highlight rx ∘ snd) <$> kept, None) ∧
  ∀ (j : Z) (line : bytes), (j, line) ∈ kept →
    if invert then FindIndex rx line = None ∧ highlight rx line = []
    else ∃ lo hi, FindIndex rx line = Some (lo, hi) ∧
                  highlight rx line = span_positions lo hi.
Proof.
  intros Hq Hrx kept. split; [by apply (filterLogs_compiled _ _ _ p) |].
  intros j line Hin. apply kept_from_keeps in Hin.
  unfold keeps, highlight in *. destruct invert.
  - apply bool_decide_eq_true in Hin. by rewrite Hin.
  - apply bool_decide_eq_true in Hin.
    destruct (FindIndex rx line) as [[lo hi]|]; [eauto | done].
Qed.

End HighlightFacts.

Lemma inverse_filter_complement_witness :
  let l := [mkLogItem "" "" "t0" false (to_bytes "ab ab");
            mkLogItem "" "" "t1" false (to_bytes "xx");
            mkLogItem "" "" "t2" false (to_bytes "cAB")] in
  @strip_inverse Sample.selectors "!ab" = Some (true, "ab"%string) ∧
  @strip_inverse Sample.selectors "ab" = Some (false, "ab"%string) ∧
  @Compile Sample.regexps "(?i)ab" = inl (Sample.literal (to_bytes "ab")) ∧
  ∃ (m_inv m : list Z) (i_inv i : list (list Z)),
    @filterLogs Sample.colorizer Sample.selectors Sample.regexps
      (@init Sample.zappretty) l "!ab" false "" = Some (m_inv, i_inv, None) ∧
    @filterLogs Sample.colorizer Sample.selectors Sample.regexps
      (@init Sample.zappretty) l "ab" false "" = Some (m, i, None) ∧
    let range : gset Z := list_to_set (seqZ 0 (len l)) in
    let inverse : gset Z := list_to_set m_inv in
    let plain : gset Z := list_to_set m in
    inverse = range ∖ plain ∧ inverse ## plain ∧ inverse ∪ plain = range.
Proof.
  intros l.
  assert (H1 : @strip_inverse Sample.selectors "!ab" = Some (true, "ab"%string))
    by reflexivity.
  assert (H2 : @strip_inverse Sample.selectors "ab" = Some (false, "ab"%string))
    by reflexivity.
  assert (H3 : @Compile Sample.regexps "(?i)ab" =
               inl (Sample.literal (to_bytes "ab"))) by reflexivity.
  split; [exact H1 |]. split; [exact H2 |]. split; [exact H3 |].
  exact (@inverse_filter_complement Sample.colorizer Sample.selectors
           Sample.regexps (@init Sample.zappretty) l false ""
           "!ab" "ab" "ab" _ H1 H2 H3).
Defined.

Lemma Filter_empty_or_invalid_witness :
  let l := [mkLogItem "" "" "t0" false (to_bytes "ab ab")] in
  @strip_inverse Sample.selectors "(" = Some (false, "("%string) ∧
  @Compile Sample.regexps "(?i)(" = inr "error parsing regexp"%string ∧
  "("%string ≠ ""%string ∧
  @IsFuzzySelector Sample.selectors "(" = false ∧
  @filterLogs Sample.colorizer Sample.selectors Sample.regexps
    (@init Sample.zappretty) l "(" true "" =
    Some ([], [], Some "error parsing regexp"%string) ∧
  @Filter Sample.colorizer Sample.selectors Sample.regexps Sample.fuzzy
    (@init Sample.zappretty) l "(" true "" =
    Some ([], [], Some "error parsing regexp"%string).
Proof.
  intros l.
  assert (H1 : @strip_inverse Sample.selectors "(" = Some (false, "("%string))
    by reflexivity.
  assert (H2 : @Compile Sample.regexps "(?i)(" =
               inr "error parsing regexp"%string) by reflexivity.
  assert (H3 : "("%string ≠ ""%string) by discriminate.
  assert (H4 : @IsFuzzySelector Sample.selectors "(" = false) by reflexivity.
  pose proof (proj2 (@Filter_empty_or_invalid Sample.colorizer Sample.selectors
                       Sample.regexps Sample.fuzzy (@init Sample.zappretty)
                       l true "") _ _ _ _ H1 H2) as [Hf HF].
  split; [exact H1 |]. split; [exact H2 |]. split; [exact H3 |].
  split; [exact H4 |]. split; [exact Hf |]. exact (HF H3 H4).
Defined.

(** C1: on the collection of the one line "ab ab" and the query "ab",
    filterLogs keeps line 0 and returns the highlight set [0; 1], the
    positions of the leftmost match alone (the one span FindIndex reports),
    while the spans matched by the pattern in that line are [0,2) and [3,5)
    and cover the positions [0; 1; 3; 4]. *)
Theorem filterLogs_highlights_first_span_only (C : Colorizer) :
  let l := [mkLogItem "" "" "ts" false (to_bytes "ab ab")] in
  let rx := Sample.literal (to_bytes "ab") in
  @Compile Sample.regexps "(?i)ab" = inl rx ∧
  @Lines C ∅ l false "" = [to_bytes "ab ab"] ∧
  @filterLogs C Sample.selectors Sample.regexps ∅ l "ab" false "" =
    Some ([0], [[0; 1]], None) ∧
  Rx.FindAllIndex rx (to_bytes "ab ab") = [(0, 2); (3, 5)] ∧
  all_span_positions (Rx.FindAllIndex rx (to_bytes "ab ab")) = [0; 1; 3; 4].
Proof.
  repeat split; vm_compute; reflexivity.
Qed.

(** ** colorFor *)

Lemma byte_val_nonneg (c : byte) : 0 ≤ byte_val c.
Proof. unfold byte_val. lia. Qed.

Lemma DecodeRune_nonneg (p : bytes) : 0 ≤ (DecodeRune p).1.
Proof.
  pose proof byte_val_nonneg as Hb.
  unfold DecodeRune, RuneError.
  repeat (match goal with
          | |- context [match ?x with _ => _ end] => destruct x
          end; simpl; try lia);
    rewrite ?Z.lor_nonneg, ?Z.shiftl_nonneg, ?Z.land_nonneg; auto 10.
Qed.

Lemma runes_from_nonneg (s : bytes) :
  ∀ skip, Forall (λ r, 0 ≤ r) (runes_from skip s).
Proof.
  induction s as [|c s IH]; intros skip; cbn [runes_from]; [constructor |].
  destruct skip as [|k]; [| apply IH].
  pose proof (DecodeRune_nonneg (c :: s)) as Hr.
  destruct (DecodeRune (c :: s)) as [r size]. constructor; [exact Hr | apply IH].
Qed.

Lemma wrap_small (z : Z) : - 2 ^ 63 ≤ z ≤ max_int → wrap z = z.
Proof.
  unfold wrap, max_int. intros Hz. rewrite Z.mod_small; lia.
Qed.

(** While the sum fits an [int], the loop of [colorFor] computes it. *)
Lemma fold_int_add (rs : list Z) :
  ∀ acc, 0 ≤ acc → Forall (λ r, 0 ≤ r) rs →
    acc + foldr Z.add 0 rs ≤ max_int →
    fold_left (λ sum r, int_add sum r) rs acc = acc + foldr Z.add 0 rs.
Proof.
  induction rs as [|r rs IH]; intros acc Hacc Hall Hmax; simpl in *; [lia |].
  inversion Hall as [|? ? Hr Hrs]; subst.
  assert (Hsum : 0 ≤ foldr Z.add 0 rs).
  { clear -Hrs. induction Hrs; simpl; lia. }
  unfold int_add at 2. rewrite wrap_small by (unfold max_int in *; lia).
  rewrite IH by (try done; lia). lia.
Qed.

Lemma rune_sum_exact (n : string) :
  code_point_sum n ≤ max_int → rune_sum n = code_point_sum n.
Proof.
  intros Hmax. unfold rune_sum, code_point_sum in *.
  rewrite fold_int_add; [lia | lia | apply runes_from_nonneg | lia].
Qed.

Lemma code_point_sum_nonneg (n : string) : 0 ≤ code_point_sum n.
Proof.
  unfold code_point_sum, runes.
  pose proof (runes_from_nonneg (to_bytes n) 0) as Hall.
  induction Hall; simpl; lia.
Qed.

Lemma lor_le_add (a b : Z) : 0 ≤ a → 0 ≤ b → Z.lor a b ≤ a + b.
Proof.
  intros Ha Hb. pose proof (Z.add_lor_land a b).
  assert (0 ≤ Z.land a b) by (apply Z.land_nonneg; auto). lia.
Qed.

Lemma field_bound (x k n : Z) :
  0 ≤ k → 0 ≤ n →
  0 ≤ Z.shiftl (Z.land x (Z.ones k)) n ≤ (2 ^ k - 1) * 2 ^ n.
Proof.
  intros Hk Hn. rewrite Z.land_ones, Z.shiftl_mul_pow2 by done.
  pose proof (Z.mod_pos_bound x (2 ^ k) ltac:(lia)). nia.
Qed.

(** A rune is below 2^21. *)
Lemma DecodeRune_bound (p : bytes) : (DecodeRune p).1 < 2 ^ 21.
Proof.
  unfold DecodeRune, RuneError.
  repeat (match goal with
          | |- context [if ?x <? ?y then _ else _] =>
              destruct (Z.ltb_spec x y)
          | |- context [match ?x with _ => _ end] => destruct x
          end; cbn [fst]; try lia).
  all: change 63 with (Z.ones 6); change 31 with (Z.ones 5);
       change 15 with (Z.ones 4); change 7 with (Z.ones 3).
  all: repeat match goal with
         | |- context [Z.land ?x (Z.ones ?k)] =>
             lazymatch goal with
             | _ : 0 ≤ Z.land x (Z.ones k) ≤ _ |- _ => fail
             | _ => pose proof (field_bound x k 0 ltac:(lia) ltac:(lia));
                    pose proof (field_bound x k 6 ltac:(lia) ltac:(lia));
                    pose proof (field_bound x k 12 ltac:(lia) ltac:(lia));
                    pose proof (field_bound x k 18 ltac:(lia) ltac:(lia));
                    rewrite Z.shiftl_0_r in *
             end
         end.
  all: repeat match goal with
         | |- context [Z.lor ?a ?b] =>
             lazymatch goal with
             | _ : Z.lor a b ≤ a + b |- _ => fail
             | _ => assert (0 ≤ a) by (rewrite ?Z.lor_nonneg; lia);
                    assert (0 ≤ b) by (rewrite ?Z.lor_nonneg; lia);
                    pose proof (lor_le_add a b ltac:(done) ltac:(done))
             end
         end.
  all: lia.
Qed.

Lemma runes_from_sum (s : bytes) :
  ∀ skip, foldr Z.add 0 (runes_from skip s) ≤ len s * (2 ^ 21 - 1).
Proof.
  induction s as [|c s IH]; intros skip; cbn [runes_from]; [done |].
  unfold len in *. cbn [length]. destruct skip as [|k].
  - pose proof (DecodeRune_bound (c :: s)) as Hr.
    destruct (DecodeRune (c :: s)) as [r size]. cbn [foldr fst] in *.
    specialize (IH (size - 1)%nat). lia.
  - specialize (IH k). lia.
Qed.

Lemma length_to_bytes (n : string) : len (to_bytes n) = str_len n.
Proof.
  unfold len, str_len, to_bytes, list_byte_of_string.
  rewrite length_map. f_equal.
  induction n as [|a n IH]; simpl; [done | by rewrite IH].
Qed.

(** The sum of the code points of an identity shorter than 2^42 bytes fits
    an [int]. *)
Lemma code_point_sum_fits (n : string) :
  str_len n < 2 ^ 42 → code_point_sum n ≤ max_int.
Proof.
  intros Hlen. unfold code_point_sum, runes, max_int.
  pose proof (runes_from_sum (to_bytes n) 0) as Hsum.
  rewrite length_to_bytes in Hsum.
  assert (0 ≤ str_len n) by (unfold str_len; lia). nia.
Qed.

(** C4: for an identity whose code-point sum (a sum that fits an int) is
    not zero modulo 256, colorFor returns exactly that sum modulo 256, a
    code in [0,255]; it does not read the random source, so every call with
    this identity returns the same code. *)
Theorem colorFor_deterministic `{Rand} (n : string) (g : rng) :
  code_point_sum n ≤ max_int →
  code_point_sum n mod 256 ≠ 0 →
  colorFor n g = (code_point_sum n mod 256, g) ∧
  0 ≤ (colorFor n g).1 ≤ 255 ∧
  ∀ g' : rng, (colorFor n g').1 = (colorFor n g).1.
Proof.
  intros Hmax Hnz.
  assert (Hc : ∀ g0, colorFor n g0 = (code_point_sum n mod 256, g0)).
  { intros g0. unfold colorFor. rewrite rune_sum_exact by done.
    rewrite Z.rem_mod_nonneg by (pose proof (code_point_sum_nonneg n); lia).
    destruct (Z.eqb_spec (code_point_sum n mod 256) 0); [done |].
    reflexivity. }
  split; [apply Hc |]. split.
  - rewrite Hc. simpl.
    pose proof (Z.mod_pos_bound (code_point_sum n) 256). lia.
  - intros g'. by rewrite !Hc.
Qed.

Lemma colorFor_deterministic_witness :
  code_point_sum "nginx-7d9c" ≤ max_int ∧
  code_point_sum "nginx-7d9c" mod 256 ≠ 0 ∧
  @colorFor Sample.rand "nginx-7d9c" 5 = (136, 5) ∧
  @colorFor Sample.rand "nginx-7d9c" 6 = (136, 6).
Proof.
  assert (H1 : code_point_sum "nginx-7d9c" ≤ max_int)
    by (vm_compute; discriminate).
  assert (H2 : code_point_sum "nginx-7d9c" mod 256 ≠ 0)
    by (vm_compute; discriminate).
  split; [exact H1 |]. split; [exact H2 |]. split.
  - exact (proj1 (@colorFor_deterministic Sample.rand "nginx-7d9c" 5 H1 H2)).
  - exact (proj1 (@colorFor_deterministic Sample.rand "nginx-7d9c" 6 H1 H2)).
Defined.

(** ** The escape pattern and the escape pass *)

Lemma open_not_close (c : byte) :
  is_byte "[" c = true → is_byte "]" c = false.
Proof. intros Hc. apply byte_eqb_true in Hc. by subst. Qed.

Lemma class_not_bracket (c : byte) :
  esc_class c = true → is_byte "[" c = false ∧ is_byte "]" c = false.
Proof. destruct c; vm_compute; intuition congruence. Qed.

Lemma star_in_brackets (i : nat) (s : bytes) :
  ∀ n, Rx.star (is_byte "[") s (i + n) (close_k i) =
       esc_span i <$> in_brackets s n.
Proof.
  induction s as [|c s IH]; intros n; simpl; [done |].
  destruct (is_byte "[" c) eqn:Hopen.
  - replace (S (i + n)) with (i + S n)%nat by lia. rewrite IH.
    rewrite (open_not_close c Hopen).
    by destruct (esc_span i <$> in_brackets s (S n)).
  - destruct (is_byte "]" c); simpl; [| done].
    unfold esc_span. do 3 f_equal; try f_equal; lia.
Qed.

Lemma star_in_class (i : nat) (s : bytes) :
  ∀ n, Rx.star esc_class s (i + n)
         (λ s' j, Rx.star (is_byte "[") s' j (close_k i)) =
       esc_span i <$> in_class s n.
Proof.
  induction s as [|c s IH]; intros n; [done |].
  cbn [Rx.star in_class].
  destruct (esc_class c) eqn:Hclass.
  - replace (S (i + n)) with (i + S n)%nat by lia. rewrite IH.
    destruct (class_not_bracket c Hclass) as [Hopen Hclose].
    simpl. rewrite Hopen, Hclose.
    by destruct (esc_span i <$> in_class s (S n)).
  - exact (star_in_brackets i (c :: s) n).
Qed.

(** The matcher on [escPattern] is the automaton [esc_match]. *)
Lemma match_here_escPattern (s : bytes) (i : nat) :
  Rx.match_here escPattern s i = esc_span i <$> esc_match s.
Proof.
  unfold Rx.match_here, escPattern, esc_match. simpl.
  destruct s as [|c0 [|c1 s]]; simpl; [done | by destruct (is_byte "[" c0) |].
  destruct (is_byte "[" c0); simpl; [| done].
  destruct (esc_class c1); simpl; [| done].
  replace (S (S i)) with (i + 2)%nat by lia.
  apply (star_in_class i s 2).
Qed.

Lemma in_brackets_bounds (s : bytes) :
  ∀ n m, in_brackets s n = Some m → (n < m ≤ n + length s)%nat.
Proof.
  induction s as [|c s IH]; intros n m; simpl; [done |].
  destruct (is_byte "[" c); [intros Hm%IH; lia |].
  destruct (is_byte "]" c); [| done]. intros [= <-]. lia.
Qed.

Lemma in_class_bounds (s : bytes) :
  ∀ n m, in_class s n = Some m → (n < m ≤ n + length s)%nat.
Proof.
  induction s as [|c s IH]; intros n m; [done |].
  cbn [in_class]. destruct (esc_class c).
  - intros Hm%IH. simpl. lia.
  - apply in_brackets_bounds.
Qed.

(** A match of [escPattern] opens with a bracket, is at least three bytes
    long and lies within the text. *)
Lemma esc_match_bounds (s : bytes) (m : nat) :
  esc_match s = Some m →
  (3 ≤ m ≤ length s)%nat ∧ ∃ s', s = "["%byte :: s'.
Proof.
  unfold esc_match. destruct s as [|c0 [|c1 s]]; [done | done |].
  destruct (is_byte "[" c0) eqn:Hopen; [| done].
  destruct (esc_class c1); [| done]. simpl.
  intros Hm%in_class_bounds. split; [simpl; lia |].
  apply byte_eqb_true in Hopen as <-. eauto.
Qed.

Lemma DecodeRune_width (p : bytes) : ((DecodeRune p).2 ≤ 4)%nat.
Proof.
  unfold DecodeRune.
  repeat (match goal with
          | |- context [match ?x with _ => _ end] => destruct x
          end; simpl; try lia).
Qed.

Lemma take_plus {A} (a b : nat) (l : list A) :
  take (a + b) l = take a l ++ take b (drop a l).
Proof.
  revert l. induction a as [|a IH]; intros [|x l]; simpl; try done.
  - by rewrite take_nil.
  - by rewrite IH.
Qed.

(** Inside a match the walk copies up to the closing bracket and puts an
    opening bracket in front of it. *)
Lemma esc_walk_inside (s : bytes) :
  ∀ k, (1 ≤ k ≤ length s)%nat →
    esc_walk k s =
    take (k - 1) s ++ "["%byte :: "]"%byte :: esc_walk 0 (drop k s).
Proof.
  induction s as [|c s IH]; intros k Hk; simpl in Hk; [lia |].
  destruct k as [|[|k]]; [lia | reflexivity |].
  cbn [esc_walk]. rewrite IH by lia.
  simpl. by rewrite Nat.sub_0_r.
Qed.

(** At a match the walk copies all but its last byte, writes the empty
    bracket pair, and goes on behind the match. *)
Lemma esc_walk_match (s : bytes) (m : nat) :
  esc_match s = Some m →
  esc_walk 0 s =
  take (m - 1) s ++ "["%byte :: "]"%byte :: esc_walk 0 (drop m s).
Proof.
  intros Hm. destruct (esc_match_bounds s m Hm) as [Hlen [s' ->]].
  cbn [esc_walk]. rewrite Hm. simpl in Hlen.
  rewrite esc_walk_inside by lia.
  destruct m as [|[|m]]; [lia | lia |]. simpl.
  by rewrite Nat.sub_0_r.
Qed.

(** The leftmost match of [escPattern] in [s], and the walk up to its end:
    [k] bytes come before the match, which is [m] bytes long. *)
Lemma find_from_walk (s : bytes) :
  ∀ i, match Rx.find_from escPattern s i with
       | None => esc_walk 0 s = s
       | Some a =>
           ∃ k m, a = esc_span (i + k) m ∧
                  (3 ≤ m)%nat ∧ (k + m ≤ length s)%nat ∧
                  ((DecodeRune s).2 ≤ k + m)%nat ∧
                  esc_walk 0 s =
                  take (k + m - 1) s ++
                  "["%byte :: "]"%byte :: esc_walk 0 (drop (k + m) s)
       end.
Proof.
  induction s as [|c s IH]; intros i.
  - cbn [Rx.find_from]. rewrite match_here_escPattern. done.
  - cbn [Rx.find_from]. rewrite match_here_escPattern.
    destruct (esc_match (c :: s)) as [m|] eqn:Hm;
      cbn [fmap option_fmap option_map].
    + destruct (esc_match_bounds _ m Hm) as [Hlen [s' Hs']].
      exists 0%nat, m. rewrite Nat.add_0_r. split; [done |].
      split; [lia |]. split; [simpl in *; lia |]. split.
      * rewrite Hs'. unfold DecodeRune. simpl. lia.
      * exact (esc_walk_match _ _ Hm).
    + specialize (IH (S i)).
      destruct (Rx.find_from escPattern s (S i)) as [a|].
      * destruct IH as (k & m & -> & Hm3 & Hlen & _ & Hwalk).
        exists (S k), m. split; [f_equal; lia |]. split; [done |].
        split; [simpl; lia |]. split.
        -- pose proof (DecodeRune_width (c :: s)). lia.
        -- cbn [esc_walk]. rewrite Hm, Hwalk.
           replace (S k + m - 1)%nat with (S (k + m - 1)) by lia.
           reflexivity.
      * cbn [esc_walk]. by rewrite Hm, IH.
Qed.

Lemma expand_matcher (src : bytes) (i m : nat) :
  Rx.expand matcher src (esc_span i m) =
  Rx.subslice src i (i + m - 1) ++ ["["%byte; "]"%byte].
Proof. reflexivity. Qed.

(** Enough fuel for the loop of [replaceAll]: from offset [p], any fuel
    above [length src - p] gives the walk over the rest of the text. *)
Lemma replaceAll_fuel (fuel : nat) (src : bytes) :
  ∀ (p : nat) (buf : bytes),
    (p ≤ length src)%nat → (length src - p < fuel)%nat →
    Rx.replaceAll_loop fuel escPattern src matcher p p buf =
    buf ++ esc_walk 0 (drop p src).
Proof.
  induction fuel as [|fuel IH]; intros p buf Hp Hfuel; [lia |].
  cbn [Rx.replaceAll_loop].
  destruct (Nat.leb_spec p (length src)); [| lia].
  unfold Rx.doExecute.
  pose proof (find_from_walk (drop p src) p) as Hfind.
  destruct (Rx.find_from escPattern (drop p src) p) as [a|].
  - destruct Hfind as (k & m & -> & Hm3 & Hlen & Hwidth & Hwalk).
    rewrite length_drop in Hlen.
    cbn [Rx.m_lo Rx.m_hi esc_span].
    destruct (Nat.ltb_spec p (p + k + m)); [| lia]. cbn [orb].
    destruct (Nat.ltb_spec (p + k + m) (p + (DecodeRune (drop p src)).2));
      [lia |].
    destruct (Nat.ltb_spec (p + k + m) (p + 1)); [lia |].
    rewrite IH; [| lia | lia].
    change (Rx.mkSpan (p + k) (p + k + m) (Some ((p + k)%nat, (p + k + m - 1)%nat)))
      with (esc_span (p + k) m).
    rewrite expand_matcher, Hwalk. unfold Rx.subslice.
    rewrite drop_drop, <- !app_assoc. f_equal.
    replace (p + k - p)%nat with k by lia.
    replace (p + k + m - 1 - (p + k))%nat with (m - 1)%nat by lia.
    replace (k + m - 1)%nat with (k + (m - 1))%nat by lia.
    rewrite take_plus, drop_drop, <- !app_assoc. simpl.
    by rewrite Nat.add_assoc.
  - by rewrite Hfind.
Qed.

Example escape_example : escape (to_bytes "a [warn] b [x[[] [] [!]") =
                    to_bytes "a [warn[] b [x[[[] [] [!]".
Proof. vm_compute. reflexivity. Qed.

(** The escape pass is the walk. *)
Lemma escape_walk (b : bytes) : escape b = esc_walk 0 b.
Proof.
  unfold escape, Rx.ReplaceAll. rewrite replaceAll_fuel by lia. done.
Qed.

(** *** Texts without a bracket token *)

Lemma is_byte_false (a c : byte) : a ≠ c → is_byte a c = false.
Proof. apply byte_eqb_false. Qed.

Lemma in_brackets_no_close (s : bytes) :
  "]"%byte ∉ s → ∀ n, in_brackets s n = None.
Proof.
  induction s as [|c s IH]; intros Hnot n; simpl; [done |].
  rewrite (is_byte_false "]" c) by (intros <-; apply Hnot; left).
  destruct (is_byte "[" c); [| done].
  apply IH. intros Hin. apply Hnot. by right.
Qed.

Lemma in_class_no_close (s : bytes) :
  "]"%byte ∉ s → ∀ n, in_class s n = None.
Proof.
  induction s as [|c s IH]; intros Hnot n; [done |].
  cbn [in_class]. destruct (esc_class c).
  - apply IH. intros Hin. apply Hnot. by right.
  - by apply in_brackets_no_close.
Qed.

Lemma esc_match_no_bracket (s : bytes) :
  "["%byte ∉ s ∨ "]"%byte ∉ s → esc_match s = None.
Proof.
  intros Hnot. unfold esc_match. destruct s as [|c0 [|c1 s]]; [done | done |].
  destruct Hnot as [Hnot | Hnot].
  - by rewrite (is_byte_false "[" c0) by (intros <-; apply Hnot; left).
  - destruct (is_byte "[" c0 && esc_class c1); [| done].
    apply in_class_no_close. intros Hin. apply Hnot. by do 2 right.
Qed.

Lemma find_from_no_bracket (s : bytes) :
  "["%byte ∉ s ∨ "]"%byte ∉ s →
  ∀ i, Rx.find_from escPattern s i = None.
Proof.
  induction s as [|c s IH]; intros Hnot i; cbn [Rx.find_from];
    rewrite match_here_escPattern, esc_match_no_bracket by done; [done |].
  cbn [fmap option_fmap option_map]. apply IH.
  destruct Hnot as [Hnot | Hnot]; [left | right];
    intros Hin; apply Hnot; by right.
Qed.

(** *** Texts with a bracket token *)

Lemma in_brackets_app (s x : bytes) :
  ∀ n m, in_brackets s n = Some m → in_brackets (s ++ x) n = Some m.
Proof.
  induction s as [|c s IH]; intros n m; simpl; [done |].
  destruct (is_byte "[" c); [apply IH |]. by destruct (is_byte "]" c).
Qed.

Lemma in_class_app (s x : bytes) :
  ∀ n m, in_class s n = Some m → in_class (s ++ x) n = Some m.
Proof.
  induction s as [|c s IH]; intros n m; [done |].
  cbn [in_class app]. destruct (esc_class c); [apply IH |].
  apply (in_brackets_app (c :: s)).
Qed.

(** A match within [s] is still the match when text follows [s]. *)
Lemma esc_match_app (s x : bytes) (m : nat) :
  esc_match s = Some m → esc_match (s ++ x) = Some m.
Proof.
  unfold esc_match. destruct s as [|c0 [|c1 s]]; [done | done |]. simpl.
  destruct (is_byte "[" c0 && esc_class c1); [| done]. apply in_class_app.
Qed.

(** The text [x] that follows opens a token of its own: an opening bracket
    and then a byte [w] that is no bracket.  No match that starts before
    [x] reaches into it. *)
Lemma in_brackets_app_open (s y : bytes) (w : byte) :
  is_byte "[" w = false → is_byte "]" w = false →
  ∀ n, in_brackets s n = None →
       in_brackets (s ++ "["%byte :: w :: y) n = None.
Proof.
  intros Hw1 Hw2. induction s as [|c s IH]; intros n; simpl.
  - by rewrite Hw1, Hw2.
  - destruct (is_byte "[" c); [apply IH |]. by destruct (is_byte "]" c).
Qed.

Lemma in_class_app_open (s y : bytes) (w : byte) :
  is_byte "[" w = false → is_byte "]" w = false →
  ∀ n, in_class s n = None →
       in_class (s ++ "["%byte :: w :: y) n = None.
Proof.
  intros Hw1 Hw2. induction s as [|c s IH]; intros n.
  - intros _. simpl. by rewrite Hw1, Hw2.
  - cbn [in_class app]. destruct (esc_class c); [apply IH |].
    apply (in_brackets_app_open (c :: s)); done.
Qed.

Lemma esc_match_app_open (s y : bytes) (w : byte) :
  is_byte "[" w = false → is_byte "]" w = false →
  s ≠ [] → esc_match s = None →
  esc_match (s ++ "["%byte :: w :: y) = None.
Proof.
  intros Hw1 Hw2 Hne. unfold esc_match.
  destruct s as [|c0 [|c1 s]]; [done | |]; simpl.
  - intros _. by rewrite andb_false_r.
  - destruct (is_byte "[" c0 && esc_class c1); [| done].
    by apply in_class_app_open.
Qed.

(** The walk over a text that is followed by a token is the walk over the
    text, then the walk over the token and what follows it. *)
Lemma esc_walk_app_open (pre y : bytes) (w : byte) :
  is_byte "[" w = false → is_byte "]" w = false →
  ∀ inside, (inside ≤ length pre)%nat →
    esc_walk inside (pre ++ "["%byte :: w :: y) =
    esc_walk inside pre ++ esc_walk 0 ("["%byte :: w :: y).
Proof.
  intros Hw1 Hw2. induction pre as [|c pre IH]; intros inside Hin.
  - simpl in Hin. by replace inside with 0%nat by lia.
  - simpl in Hin. destruct inside as [|[|inside]].
    + cbn [app esc_walk].
      destruct (esc_match (c :: pre)) as [m|] eqn:Hm.
      * pose proof (esc_match_app (c :: pre) ("["%byte :: w :: y) m Hm) as Hm'.
        cbn [app] in Hm'. rewrite Hm'.
        destruct (esc_match_bounds _ _ Hm) as [Hlen _]. simpl in Hlen.
        rewrite IH by lia. done.
      * pose proof (esc_match_app_open (c :: pre) y w Hw1 Hw2) as Hm'.
        cbn [app] in Hm'. rewrite Hm' by done.
        rewrite IH by lia. done.
    + cbn [app esc_walk]. rewrite IH by lia. done.
    + cbn [app esc_walk]. rewrite IH by lia. done.
Qed.

Lemma in_class_run (cs rest : bytes) :
  Forall (λ c, esc_class c = true) cs →
  ∀ n, in_class (cs ++ "]"%byte :: rest) n = Some (S (n + length cs)) ∧
       in_class (cs ++ "["%byte :: "]"%byte :: rest) n =
         Some (S (S (n + length cs))).
Proof.
  induction 1 as [|c cs Hc _ IH]; intros n.
  - simpl. split; do 2 f_equal; lia.
  - cbn [app in_class]. rewrite Hc. destruct (IH (S n)) as [-> ->].
    simpl. split; do 2 f_equal; lia.
Qed.

(** A token: an opening bracket, class bytes [cs], a closing bracket.  It is
    matched whole, and after the pass, with the bracket pair in it, it is
    matched again, one byte longer. *)
Lemma esc_match_token (cs rest : bytes) :
  cs ≠ [] → Forall (λ c, esc_class c = true) cs →
  esc_match ("["%byte :: cs ++ "]"%byte :: rest) = Some (length cs + 2)%nat ∧
  esc_match ("["%byte :: cs ++ "["%byte :: "]"%byte :: rest) =
    Some (length cs + 3)%nat.
Proof.
  intros Hne Hcs. destruct cs as [|c cs]; [done |].
  inversion Hcs as [|? ? Hc Hcs']; subst.
  unfold esc_match. cbn [app]. rewrite Hc.
  destruct (in_class_run cs rest Hcs' 2) as [-> ->].
  simpl. split; do 2 f_equal; lia.
Qed.

(** The pass over a text with a token in it: the text before and the text
    after are escaped on their own, and the token gets the bracket pair in
    place of its closing bracket. *)
Lemma escape_token (pre cs post : bytes) :
  cs ≠ [] → Forall (λ c, esc_class c = true) cs →
  escape (pre ++ "["%byte :: cs ++ "]"%byte :: post) =
  escape pre ++ "["%byte :: cs ++ "["%byte :: "]"%byte :: escape post.
Proof.
  intros Hne Hcs. rewrite !escape_walk.
  destruct (esc_match_token cs post Hne Hcs) as [Hm _].
  assert (Hsplit :
    esc_walk 0 (pre ++ "["%byte :: cs ++ "]"%byte :: post) =
    esc_walk 0 pre ++ esc_walk 0 ("["%byte :: cs ++ "]"%byte :: post)).
  { destruct cs as [|c cs']; [done |].
    inversion Hcs as [|? ? Hc Hcs']; subst.
    destruct (class_not_bracket c Hc) as [Hw1 Hw2].
    apply (esc_walk_app_open pre (cs' ++ "]"%byte :: post) c); [done | done | lia]. }
  rewrite Hsplit. f_equal. rewrite (esc_walk_match _ _ Hm).
  replace (length cs + 2 - 1)%nat with (S (length cs)) by lia.
  replace (length cs + 2)%nat with (S (length cs + 1)) by lia.
  cbn [take drop]. rewrite take_app_length.
  replace (cs ++ "]"%byte :: post) with ((cs ++ ["]"%byte]) ++ post)
    by (rewrite <- app_assoc; reflexivity).
  rewrite drop_app_length' by (rewrite length_app; simpl; lia).
  reflexivity.
Qed.

Lemma warn_class :
  Forall (λ c, esc_class c = true) (to_bytes "warn").
Proof. repeat constructor. Qed.

(** C7: the escape pass leaves unchanged every message in which escPattern
    finds no token, in particular every message without an opening or
    without a closing bracket.  A message that contains "[warn]" is
    rewritten with an empty bracket pair in place of the closing bracket of
    the token, "[warn[]", the text before and after being escaped on its
    own.  Scanned again with escPattern, the rewritten token no longer
    matches at the original boundary: the match that ended 6 bytes after
    the start of the token now ends 7 bytes after it. *)
Theorem escape_bracket_tokens :
  (∀ msg : bytes, Rx.FindIndex escPattern msg = None → escape msg = msg) ∧
  (∀ msg : bytes, "["%byte ∉ msg ∨ "]"%byte ∉ msg →
     Rx.FindIndex escPattern msg = None ∧ escape msg = msg) ∧
  (escape (to_bytes "[warn]") = to_bytes "[warn[]" ∧
   Rx.FindIndex escPattern (to_bytes "[warn]") = Some (0, 6) ∧
   Rx.FindIndex escPattern (to_bytes "[warn[]") = Some (0, 7)) ∧
  (∀ pre post : bytes,
     let warn := to_bytes "[warn]" in
     let warn' := to_bytes "[warn[]" in
     let k := length pre in
     let k' := length (escape pre) in
     escape (pre ++ warn ++ post) = escape pre ++ warn' ++ escape post ∧
     Rx.m_hi <$> Rx.match_here escPattern (warn ++ post) k = Some (k + 6)%nat ∧
     Rx.m_hi <$> Rx.match_here escPattern (warn' ++ escape post) k' =
       Some (k' + 7)%nat ∧
     Rx.m_hi <$> Rx.match_here escPattern (warn' ++ escape post) k' ≠
       Some (k' + 6)%nat).
Proof.
  assert (Hnone : ∀ msg, Rx.FindIndex escPattern msg = None → escape msg = msg).
  { intros msg Hfind. rewrite escape_walk.
    unfold Rx.FindIndex, Rx.doExecute in Hfind. rewrite drop_0 in Hfind.
    pose proof (find_from_walk msg 0) as Hwalk.
    destruct (Rx.find_from escPattern msg 0); [done | exact Hwalk]. }
  split; [exact Hnone |]. split; [| split].
  - intros msg Hnot.
    assert (Hfind : Rx.FindIndex escPattern msg = None).
    { unfold Rx.FindIndex, Rx.doExecute. rewrite drop_0.
      by rewrite find_from_no_bracket. }
    split; [exact Hfind | by apply Hnone].
  - repeat split; vm_compute; reflexivity.
  - intros pre post warn warn' k k'.
    destruct (esc_match_token (to_bytes "warn") post) as [Hm _];
      [done | apply warn_class |].
    destruct (esc_match_token (to_bytes "warn") (escape post)) as [_ Hm'];
      [done | apply warn_class |].
    assert (Hhi : Rx.m_hi <$> Rx.match_here escPattern (warn' ++ escape post) k' =
                  Some (k' + 7)%nat).
    { rewrite match_here_escPattern.
      change (warn' ++ escape post)
        with ("["%byte :: to_bytes "warn" ++ "["%byte :: "]"%byte :: escape post).
      by rewrite Hm'. }
    split; [exact (escape_token pre (to_bytes "warn") post ltac:(done) warn_class) |].
    split; [| split; [exact Hhi |]].
    + rewrite match_here_escPattern.
      change (warn ++ post)
        with ("["%byte :: to_bytes "warn" ++ "]"%byte :: post).
      by rewrite Hm.
    + rewrite Hhi. intros [= Heq]. lia.
Qed.

Lemma escape_bracket_tokens_witness :
  Rx.FindIndex escPattern (to_bytes "GET /healthz 200 [] ok") = None ∧
  escape (to_bytes "GET /healthz 200 [] ok") =
    to_bytes "GET /healthz 200 [] ok" ∧
  ("["%byte ∉ to_bytes "level=info]" ∨ "]"%byte ∉ to_bytes "level=info]") ∧
  escape (to_bytes "level=info]") = to_bytes "level=info]".
Proof.
  assert (H1 : Rx.FindIndex escPattern (to_bytes "GET /healthz 200 [] ok") = None)
    by (vm_compute; reflexivity).
  assert (H2 : "["%byte ∉ to_bytes "level=info]" ∨
               "]"%byte ∉ to_bytes "level=info]").
  { left. intros Hin. apply list_elem_of_In in Hin. vm_compute in Hin.
    repeat (destruct Hin as [Hin | Hin]; [discriminate Hin |]). exact Hin. }
  split; [exact H1 |].
  split; [exact (proj1 escape_bracket_tokens _ H1) |].
  split; [exact H2 |].
  exact (proj2 (proj1 (proj2 escape_bracket_tokens) _ H2)).
Defined.

(** * Further properties of the package *)

(** ** Parsing *)

Lemma Split_hd_no_sep (s : bytes) (sep : byte) :
  sep ∉ hd [] (Split s sep).
Proof.
  induction s as [|c s IH]; simpl; [by intros ?%elem_of_nil |].
  destruct (Byte.eqb c sep) eqn:E; simpl; [by intros ?%elem_of_nil |].
  destruct (Split_cons s sep) as (w & ws & Hs). rewrite Hs in *. simpl in *.
  intros [-> | Hin]%elem_of_cons; [| done].
  by rewrite byte_eqb_refl in E.
Qed.

Lemma Join_cons_cons (w w' : bytes) (ws : list bytes) (sep : bytes) :
  Join (w :: w' :: ws) sep = w ++ sep ++ Join (w' :: ws) sep.
Proof. reflexivity. Qed.

(** A text with a separator in it is its first piece, the separator, and
    the other pieces joined. *)
Lemma Split_decompose (s : bytes) (sep : byte) :
  sep ∈ s →
  s = hd [] (Split s sep) ++ sep :: Join (tl (Split s sep)) [sep].
Proof.
  intros Hin. pose proof (Join_Split s sep) as HJ.
  pose proof (Split_hd_no_sep s sep) as Hhd.
  destruct (Split_cons s sep) as (w & ws & Hs). rewrite Hs in *. simpl in *.
  destruct ws as [|w' ws]; simpl in HJ.
  - subst w. done.
  - by rewrite <- HJ at 1.
Qed.

Lemma Join_nil_inv (ws : list bytes) (sep : byte) :
  Join ws [sep] = [] → ws = [] ∨ ws = [[]].
Proof.
  destruct ws as [|w [|w' ws]]; [by left | simpl; intros ->; by right |].
  rewrite Join_cons_cons. intros Heq.
  apply app_eq_nil in Heq as [_ Heq]. discriminate Heq.
Qed.

Section ParseFacts.

(** X1: NewLogItem never leaves a space in Timestamp, and when the line (without
    its last byte) has a space in it, the line is Timestamp, one space and
    Bytes: nothing of the line is lost or reordered. *)
Theorem NewLogItem_columns (content : bytes) (c : byte) (item : LogItem) :
  NewLogItem (content ++ [c]) = Some item →
  (space ∉ to_bytes (Timestamp item)) ∧
  (space ∈ content →
   content = to_bytes (Timestamp item) ++ space :: Bytes item) ∧
  Pod item = ""%string ∧ Container item = ""%string ∧
  SingleContainer item = false.
Proof.
  rewrite NewLogItem_snoc. intros [= <-]. simpl.
  rewrite to_bytes_to_string.
  split; [apply Split_hd_no_sep |]. split; [apply Split_decompose | done].
Qed.

(** X2: the parsed item is empty exactly when the line (without its last byte)
    has no space, or has its only space at its very end. *)
Theorem NewLogItem_IsEmpty (content : bytes) (c : byte) (item : LogItem) :
  NewLogItem (content ++ [c]) = Some item →
  (IsEmpty item = true ↔
   ∃ ts : bytes, (space ∉ ts) ∧ (content = ts ∨ content = ts ++ [space])).
Proof.
  rewrite NewLogItem_snoc. intros [= <-]. unfold IsEmpty. simpl.
  rewrite Z.eqb_eq. unfold len.
  pose proof (Join_Split content space) as HJ.
  pose proof (Split_hd_no_sep content space) as Hhd.
  destruct (Split_cons content space) as (w & ws & Hs).
  rewrite Hs in *. simpl in *. split.
  - intros Hlen.
    assert (Hnil : Join ws [space] = [])
      by (destruct (Join ws [space]); [done | simpl in Hlen; lia]).
    exists w. split; [done |].
    destruct (Join_nil_inv _ _ Hnil) as [-> | ->]; simpl in HJ; auto.
  - intros (ts & Hts & [-> | ->]).
    + rewrite Split_no_sep in Hs by done. by simplify_eq.
    + rewrite Split_app_sep in Hs by done. simpl in Hs. by simplify_eq.
Qed.

End ParseFacts.

Lemma NewLogItem_columns_witness :
  NewLogItem (to_bytes "12:00 GET  /x " ++ [newline]) =
    Some (mkLogItem "" "" "12:00" false (to_bytes "GET  /x ")) ∧
  (space ∉ to_bytes "12:00") ∧
  to_bytes "12:00 GET  /x " = to_bytes "12:00" ++ space :: to_bytes "GET  /x ".
Proof.
  assert (H : NewLogItem (to_bytes "12:00 GET  /x " ++ [newline]) =
              Some (mkLogItem "" "" "12:00" false (to_bytes "GET  /x ")))
    by reflexivity.
  assert (Hin : space ∈ to_bytes "12:00 GET  /x ")
    by (apply list_elem_of_In; vm_compute; tauto).
  pose proof (NewLogItem_columns _ _ _ H) as (Hts & Hrt & _).
  split; [exact H |]. split; [exact Hts | exact (Hrt Hin)].
Defined.

Lemma NewLogItem_IsEmpty_witness :
  NewLogItem (to_bytes "12:00 " ++ [newline]) =
    Some (mkLogItem "" "" "12:00" false []) ∧
  (IsEmpty (mkLogItem "" "" "12:00" false []) = true ↔
   ∃ ts : bytes, (space ∉ ts) ∧
     (to_bytes "12:00 " = ts ∨ to_bytes "12:00 " = ts ++ [space])).
Proof.
  assert (H : NewLogItem (to_bytes "12:00 " ++ [newline]) =
              Some (mkLogItem "" "" "12:00" false [])) by reflexivity.
  split; [exact H |]. exact (NewLogItem_IsEmpty _ _ _ H).
Defined.

Lemma to_bytes_app (a b : string) :
  to_bytes (a ++ b) = to_bytes a ++ to_bytes b.
Proof.
  unfold to_bytes, list_byte_of_string.
  induction a as [|x a IH]; simpl; [done | by rewrite IH].
Qed.

Lemma to_bytes_nil_inv (s : string) : to_bytes s = [] → s = ""%string.
Proof. by destruct s. Qed.

(** X3: a literal wrapped by NewLogItemFromString keeps its text (the bytes
    convert back to the string), is empty exactly when the string is, has
    no identity, and without the timestamp column is assembled as the
    escaped text alone, whatever the clock and the colour. *)
Theorem NewLogItemFromString_text `{Colorizer} (now s : string) (paint : Z) :
  to_string (Bytes (NewLogItemFromString now s)) = s ∧
  (IsEmpty (NewLogItemFromString now s) = true ↔ s = ""%string) ∧
  ID (NewLogItemFromString now s) = ""%string ∧
  assemble (NewLogItemFromString now s) paint false = escape (to_bytes s).
Proof.
  split; [apply to_string_to_bytes |]. split; [| done].
  unfold IsEmpty, len. simpl. rewrite Z.eqb_eq. split.
  - intros Hlen. apply to_bytes_nil_inv.
    destruct (to_bytes s); [done | simpl in Hlen; lia].
  - by intros ->.
Qed.

(** ** Rendering one item *)

Lemma to_bytes_pad_loop (turns : nat) :
  ∀ t, to_bytes (pad_loop turns t) = to_bytes t ++ replicate turns space.
Proof.
  induction turns as [|n IH]; intros t; simpl; [by rewrite app_nil_r |].
  by rewrite IH, to_bytes_app, <- app_assoc.
Qed.

Section RenderMore.
Context `{Colorizer}.

(** X4: with showTime, the assembled line is the timestamp column and then
    exactly the line assembled without it.  The column is the timestamp
    followed by spaces up to 30 bytes, never cut when it is longer, in the
    fixed colour 106 (not the colour of the item), and one space. *)
Theorem Render_timestamp_column (l : LogItem) (paint : Z) :
  assemble l paint true =
    to_bytes (ANSIColorize (pad30 (Timestamp l)) 106) ++
    space :: assemble l paint false ∧
  to_bytes (pad30 (Timestamp l)) =
    to_bytes (Timestamp l) ++
    replicate (Z.to_nat (30 - str_len (Timestamp l))) space ∧
  str_len (pad30 (Timestamp l)) = Z.max 30 (str_len (Timestamp l)).
Proof.
  assert (Hpad : to_bytes (pad30 (Timestamp l)) =
                 to_bytes (Timestamp l) ++
                 replicate (Z.to_nat (30 - str_len (Timestamp l))) space)
    by apply to_bytes_pad_loop.
  split; [| split; [exact Hpad |]].
  - unfold assemble. simpl.
    destruct (decide (Pod l ≠ "")),
      (negb (SingleContainer l) && bool_decide (Container l ≠ ""));
      simpl; rewrite <- ?app_assoc; reflexivity.
  - rewrite <- (length_to_bytes (pad30 _)), Hpad, len_app, length_to_bytes.
    unfold len. rewrite length_replicate.
    assert (0 ≤ str_len (Timestamp l)) by (unfold str_len; lia). lia.
Qed.

(** X5: in single-container mode the container name is not rendered: items that
    differ only in Container render to the same bytes; and an item without
    a pod name whose container is not shown renders the same in every
    colour. *)
Theorem Render_single_container (logModifiers : registry)
    (pod container container' t : string) (b : bytes)
    (paint paint' : Z) (showTime : bool) (modifier : string) :
  Render logModifiers (mkLogItem pod container t true b)
    paint showTime modifier =
  Render logModifiers (mkLogItem pod container' t true b)
    paint showTime modifier ∧
  Render logModifiers (mkLogItem "" container t true b)
    paint showTime modifier =
  Render logModifiers (mkLogItem "" container t true b)
    paint' showTime modifier ∧
  ∀ single,
    Render logModifiers (mkLogItem "" "" t single b)
      paint showTime modifier =
    Render logModifiers (mkLogItem "" "" t single b)
      paint' showTime modifier.
Proof.
  split; [reflexivity |]. split; [reflexivity |].
  intros single. unfold Render, assemble. simpl.
  by rewrite andb_false_r.
Qed.

(** ** The registry *)

(** X6: Registering under a name replaces what was there and touches no other
    name; registering nil under a name turns rendering with that name into
    the identity on the assembled line. *)
Theorem RegisterLogModifier_overwrites (logModifiers : registry)
    (name other : string) (m1 m2 : option LogModifier)
    (l : LogItem) (paint : Z) (showTime : bool) :
  Render (RegisterLogModifier name m2 (RegisterLogModifier name m1 logModifiers))
    l paint showTime name =
  Render (RegisterLogModifier name m2 logModifiers) l paint showTime name ∧
  Render (RegisterLogModifier name None logModifiers) l paint showTime name =
    assemble l paint showTime ∧
  (name ≠ other →
   Render (RegisterLogModifier name m1 logModifiers) l paint showTime other =
   Render logModifiers l paint showTime other).
Proof.
  unfold Render. rewrite !registry_get_register. split; [done |].
  split; [done |]. intros Hne. by rewrite registry_get_register_ne.
Qed.

End RenderMore.

Lemma RegisterLogModifier_overwrites_witness :
  "upper"%string ≠ "zap-pretty"%string ∧
  @Render Sample.colorizer
    (RegisterLogModifier "upper" (Some (mkLogModifier (λ b, b ++ b)))
       (@init Sample.zappretty))
    (mkLogItem "" "" "ts" false (to_bytes "{}")) 0 false "zap-pretty" =
  @Render Sample.colorizer (@init Sample.zappretty)
    (mkLogItem "" "" "ts" false (to_bytes "{}")) 0 false "zap-pretty".
Proof.
  assert (Hne : "upper"%string ≠ "zap-pretty"%string) by discriminate.
  split; [exact Hne |].
  exact (proj2 (proj2 (@RegisterLogModifier_overwrites Sample.colorizer
           (@init Sample.zappretty) "upper" "zap-pretty"
           (Some (mkLogModifier (λ b, b ++ b))) None
           (mkLogItem "" "" "ts" false (to_bytes "{}")) 0 false)) Hne).
Defined.

Section InitFacts.
Context `{Colorizer, ZapPretty}.

(** X7: with the registry as init leaves it, every modifier name but zap-pretty
    renders the assembled line unchanged; zap-pretty renders the pretty
    line, and when the pretty-printer refuses the assembled line, the same
    bytes as no modifier at all. *)
Theorem Render_init (l : LogItem) (paint : Z) (showTime : bool) :
  (∀ modifier : string, modifier ≠ "zap-pretty"%string →
     Render init l paint showTime modifier = assemble l paint showTime) ∧
  (∀ e, PrettyLine (to_string (assemble l paint showTime)) true = inr e →
     Render init l paint showTime "zap-pretty" =
     Render init l paint showTime "") ∧
  (∀ pretty,
     PrettyLine (to_string (assemble l paint showTime)) true = inl pretty →
     Render init l paint showTime "zap-pretty" = to_bytes pretty).
Proof.
  assert (Hother : ∀ modifier : string, modifier ≠ "zap-pretty"%string →
            Render init l paint showTime modifier = assemble l paint showTime).
  { intros modifier Hne. unfold Render, init.
    rewrite registry_get_register_ne by done.
    unfold registry_get. by rewrite lookup_empty. }
  assert (Hzap : Render init l paint showTime "zap-pretty" =
                 ZapPretty_Modify (assemble l paint showTime)).
  { unfold Render, init. by rewrite registry_get_register. }
  split; [exact Hother |]. split.
  - intros e He. rewrite Hzap, Hother by discriminate.
    unfold ZapPretty_Modify. by rewrite He.
  - intros pretty Hp. rewrite Hzap. unfold ZapPretty_Modify. by rewrite Hp.
Qed.

End InitFacts.

Lemma Render_init_witness :
  let l := mkLogItem "" "" "ts" false (to_bytes "plain") in
  "json"%string ≠ "zap-pretty"%string ∧
  @Render Sample.colorizer (@init Sample.zappretty) l 0 false "json" =
    @assemble Sample.colorizer l 0 false ∧
  @PrettyLine Sample.zappretty
    (to_string (@assemble Sample.colorizer l 0 false)) true =
    inr "not a zap line"%string ∧
  @Render Sample.colorizer (@init Sample.zappretty) l 0 false "zap-pretty" =
    @Render Sample.colorizer (@init Sample.zappretty) l 0 false "".
Proof.
  intros l.
  assert (Hne : "json"%string ≠ "zap-pretty"%string) by discriminate.
  assert (He : @PrettyLine Sample.zappretty
                 (to_string (@assemble Sample.colorizer l 0 false)) true =
               inr "not a zap line"%string) by reflexivity.
  pose proof (@Render_init Sample.colorizer Sample.zappretty l 0 false)
    as (Hother & Herr & _).
  split; [exact Hne |]. split; [exact (Hother _ Hne) |].
  split; [exact He | exact (Herr _ He)].
Defined.

(** ** The escape pass *)

Lemma open_not_class (c : byte) :
  is_byte "[" c = true → esc_class c = false.
Proof. intros Hc. apply byte_eqb_true in Hc. by subst. Qed.

Lemma in_brackets_run (k : nat) (rest : bytes) :
  ∀ n, in_brackets (replicate k "["%byte ++ "]"%byte :: rest) n =
       Some (S (n + k)).
Proof.
  induction k as [|k IH]; intros n; simpl.
  - do 2 f_equal. lia.
  - change (is_byte "[" "[") with true. cbn iota. rewrite IH.
    do 2 f_equal. lia.
Qed.

Lemma in_class_brackets_run (cs : bytes) (k : nat) (rest : bytes) :
  Forall (λ c, esc_class c = true) cs →
  ∀ n, in_class (cs ++ replicate k "["%byte ++ "]"%byte :: rest) n =
       Some (S (n + length cs + k)).
Proof.
  induction 1 as [|c cs Hc _ IH]; intros n.
  - cbn [app length]. rewrite Nat.add_0_r, <- (in_brackets_run k rest n).
    destruct k; reflexivity.
  - cbn [app in_class length]. rewrite Hc, IH. do 2 f_equal. lia.
Qed.

Lemma esc_match_token_brackets (cs : bytes) (k : nat) (rest : bytes) :
  cs ≠ [] → Forall (λ c, esc_class c = true) cs →
  esc_match ("["%byte :: cs ++ replicate k "["%byte ++ "]"%byte :: rest) =
    Some (length cs + k + 2)%nat.
Proof.
  intros Hne Hcs. destruct cs as [|c cs]; [done |].
  inversion Hcs as [|? ? Hc Hcs']; subst.
  unfold esc_match. cbn [app]. rewrite Hc.
  change (is_byte "[" "[" && true) with true. cbn iota.
  rewrite in_class_brackets_run by done. simpl. do 2 f_equal. lia.
Qed.

Lemma replicate_snoc {A} (k : nat) (x : A) (l : list A) :
  replicate k x ++ x :: l = replicate (S k) x ++ l.
Proof. induction k as [|k IH]; simpl; [done |]. by rewrite IH. Qed.

Lemma escape_at_token_brackets (pre cs : bytes) (k : nat) (post : bytes) :
  cs ≠ [] → Forall (λ c, esc_class c = true) cs →
  escape (pre ++ "["%byte :: cs ++ replicate k "["%byte ++ "]"%byte :: post) =
  escape pre ++
  "["%byte :: cs ++ replicate (S k) "["%byte ++ "]"%byte :: escape post.
Proof.
  intros Hne Hcs. rewrite !escape_walk.
  pose proof (esc_match_token_brackets cs k post Hne Hcs) as Hm.
  set (tail := replicate k "["%byte ++ "]"%byte :: post) in *.
  assert (Hsplit :
    esc_walk 0 (pre ++ "["%byte :: cs ++ tail) =
    esc_walk 0 pre ++ esc_walk 0 ("["%byte :: cs ++ tail)).
  { destruct cs as [|c cs']; [done |].
    inversion Hcs as [|? ? Hc Hcs']; subst.
    destruct (class_not_bracket c Hc) as [Hw1 Hw2].
    apply (esc_walk_app_open pre (cs' ++ tail) c); [done | done | lia]. }
  rewrite Hsplit. f_equal. rewrite (esc_walk_match _ _ Hm).
  replace (length cs + k + 2 - 1)%nat with (S (length cs + k)) by lia.
  replace (length cs + k + 2)%nat with (S (length cs + k + 1)) by lia.
  cbn [take drop]. unfold tail.
  replace (cs ++ replicate k "["%byte ++ "]"%byte :: post)
    with ((cs ++ replicate k "["%byte) ++ ["]"%byte] ++ post)
    by (by rewrite <- !app_assoc).
  rewrite take_app_length' by (rewrite length_app, length_replicate; lia).
  rewrite app_assoc.
  rewrite drop_app_length'
    by (rewrite !length_app, length_replicate; simpl; lia).
  rewrite <- replicate_snoc. cbn [app]. by rewrite <- app_assoc.
Qed.

(** X8: a token is an opening bracket, class bytes, any number of further
    opening brackets and a closing bracket.  Wherever it stands, the pass
    gives it one more opening bracket in front of the closing one, and
    escapes the text before and after it on its own.  So the pass is not
    idempotent: n passes over a plain token leave n opening brackets in
    front of its closing bracket. *)
Theorem escape_token_brackets (cs : bytes) :
  cs ≠ [] → Forall (λ c, esc_class c = true) cs →
  (∀ (pre post : bytes) (k : nat),
     escape (pre ++ "["%byte :: cs ++ replicate k "["%byte ++
             "]"%byte :: post) =
     escape pre ++ "["%byte :: cs ++ replicate (S k) "["%byte ++
       "]"%byte :: escape post) ∧
  (∀ n : nat,
     Nat.iter n escape ("["%byte :: cs ++ ["]"%byte]) =
     "["%byte :: cs ++ replicate n "["%byte ++ ["]"%byte]).
Proof.
  intros Hne Hcs. split.
  - intros pre post k. by apply escape_at_token_brackets.
  - induction n as [|n IH]; [done |].
    rewrite Nat.iter_succ, IH.
    exact (escape_at_token_brackets [] cs n [] Hne Hcs).
Qed.

Lemma escape_token_brackets_witness :
  to_bytes "ERROR" ≠ [] ∧
  Forall (λ c, esc_class c = true) (to_bytes "ERROR") ∧
  escape (to_bytes "a] " ++ "["%byte :: to_bytes "ERROR" ++
          replicate 1 "["%byte ++ "]"%byte :: to_bytes " [x]") =
  escape (to_bytes "a] ") ++ "["%byte :: to_bytes "ERROR" ++
    replicate 2 "["%byte ++ "]"%byte :: escape (to_bytes " [x]").
Proof.
  assert (Hne : to_bytes "ERROR" ≠ []) by discriminate.
  assert (Hcs : Forall (λ c, esc_class c = true) (to_bytes "ERROR"))
    by (repeat constructor).
  split; [exact Hne |]. split; [exact Hcs |].
  exact (proj1 (escape_token_brackets _ Hne Hcs)
           (to_bytes "a] ") (to_bytes " [x]") 1%nat).
Defined.

Lemma in_brackets_close (s : bytes) :
  ∀ n m, in_brackets s n = Some m → s !! (m - n - 1)%nat = Some "]"%byte.
Proof.
  induction s as [|c s IH]; intros n m; simpl; [done |].
  destruct (is_byte "[" c).
  - intros Hm. pose proof (in_brackets_bounds _ _ _ Hm).
    replace (m - n - 1)%nat with (S (m - S n - 1)) by lia. by apply IH.
  - destruct (is_byte "]" c) eqn:Hc; [| done]. intros [= <-].
    apply byte_eqb_true in Hc as <-.
    by replace (S n - n - 1)%nat with 0%nat by lia.
Qed.

Lemma in_class_close (s : bytes) :
  ∀ n m, in_class s n = Some m → s !! (m - n - 1)%nat = Some "]"%byte.
Proof.
  induction s as [|c s IH]; intros n m; [done |].
  cbn [in_class]. destruct (esc_class c).
  - intros Hm. pose proof (in_class_bounds _ _ _ Hm).
    replace (m - n - 1)%nat with (S (m - S n - 1)) by lia. by apply IH.
  - apply in_brackets_close.
Qed.

(** The last byte of a match is the closing bracket. *)
Lemma esc_match_close (s : bytes) (m : nat) :
  esc_match s = Some m → s !! (m - 1)%nat = Some "]"%byte.
Proof.
  unfold esc_match. destruct s as [|c0 [|c1 s]]; [done | done |].
  destruct (is_byte "[" c0 && esc_class c1); [| done].
  intros Hm. pose proof (in_class_bounds _ _ _ Hm).
  apply in_class_close in Hm.
  by replace (m - 1)%nat with (S (S (m - 2 - 1))) by lia.
Qed.

Lemma esc_walk_keeps (s : bytes) :
  ∀ inside,
    inside = 0%nat ∨ s !! (inside - 1)%nat = Some "]"%byte →
    s `sublist_of` esc_walk inside s ∧
    List.filter (λ c, negb (is_byte "[" c)) (esc_walk inside s) =
    List.filter (λ c, negb (is_byte "[" c)) s.
Proof.
  induction s as [|c s IH]; intros inside Hin; [done |].
  destruct inside as [|[|inside]].
  - cbn [esc_walk]. destruct (esc_match (c :: s)) as [m|] eqn:Hm.
    + destruct (esc_match_bounds _ _ Hm) as [Hlen _].
      apply esc_match_close in Hm.
      destruct (IH (m - 1)%nat) as [Hsub Hfil].
      { right. by replace (m - 1)%nat with (S (m - 1 - 1)) in Hm by lia. }
      split; [by apply sublist_skip | simpl; by rewrite Hfil].
    + destruct (IH 0%nat) as [Hsub Hfil]; [by left |].
      split; [by apply sublist_skip | simpl; by rewrite Hfil].
  - destruct Hin as [Hin | Hin]; [done |]. simpl in Hin. simplify_eq.
    cbn [esc_walk]. destruct (IH 0%nat) as [Hsub Hfil]; [by left |].
    split; [by apply sublist_cons, sublist_skip |].
    simpl. by rewrite Hfil.
  - destruct Hin as [Hin | Hin]; [done |]. simpl in Hin.
    cbn [esc_walk]. destruct (IH (S inside)) as [Hsub Hfil].
    { right. simpl. by rewrite Nat.sub_0_r. }
    split; [by apply sublist_skip | simpl; by rewrite Hfil].
Qed.

(** X9: the pass drops and reorders nothing: the message is a sublist of the
    escaped message, and all that the pass adds are opening brackets. *)
Theorem escape_keeps_text (msg : bytes) :
  msg `sublist_of` escape msg ∧
  List.filter (λ c, negb (is_byte "[" c)) (escape msg) =
    List.filter (λ c, negb (is_byte "[" c)) msg ∧
  (length msg ≤ length (escape msg))%nat.
Proof.
  rewrite escape_walk.
  destruct (esc_walk_keeps msg 0) as [Hsub Hfil]; [by left |].
  split; [done |]. split; [done |]. by apply sublist_length.
Qed.

(** ** Colours *)

Section ColourFacts.
Context `{Rand}.

Lemma colorFor_nonzero (n : string) (g : rng) :
  code_point_sum n ≤ max_int → code_point_sum n mod 256 ≠ 0 →
  colorFor n g = (code_point_sum n mod 256, g).
Proof.
  intros Hmax Hnz. unfold colorFor. rewrite rune_sum_exact by done.
  rewrite Z.rem_mod_nonneg by (pose proof (code_point_sum_nonneg n); lia).
  by destruct (Z.eqb_spec (code_point_sum n mod 256) 0).
Qed.

(** X10: colorFor never returns 0: when the sum of the code points is 0 modulo
    256 it reads the random source once and returns a code of the band
    207..216, given that Intn(10) answers within [0,10). *)
Theorem colorFor_never_zero (n : string) (g : rng) :
  code_point_sum n ≤ max_int →
  0 ≤ (Intn 10 g).1 < 10 →
  1 ≤ (colorFor n g).1 ≤ 255 ∧
  (code_point_sum n mod 256 = 0 →
   colorFor n g = (207 + (Intn 10 g).1, (Intn 10 g).2) ∧
   207 ≤ (colorFor n g).1 ≤ 216).
Proof.
  intros Hmax Hk.
  destruct (decide (code_point_sum n mod 256 = 0)) as [Hz | Hnz].
  - assert (Hc : colorFor n g = (207 + (Intn 10 g).1, (Intn 10 g).2)).
    { unfold colorFor. rewrite rune_sum_exact by done.
      rewrite Z.rem_mod_nonneg by (pose proof (code_point_sum_nonneg n); lia).
      rewrite Hz. simpl. destruct (Intn 10 g) as [k g'] eqn:Hi. simpl in *.
      unfold int_add. rewrite wrap_small by (unfold max_int; lia). done. }
    rewrite Hc. simpl. split; [lia |]. intros _. split; [done | lia].
  - rewrite colorFor_nonzero by done. simpl.
    pose proof (Z.mod_pos_bound (code_point_sum n) 256). split; [lia | done].
Qed.

End ColourFacts.

Lemma colorFor_never_zero_witness :
  code_point_sum "" ≤ max_int ∧
  0 ≤ (@Intn Sample.rand 10 13).1 < 10 ∧
  @colorFor Sample.rand "" 13 = (210, 14).
Proof.
  assert (H1 : code_point_sum "" ≤ max_int) by (vm_compute; discriminate).
  assert (H2 : 0 ≤ (@Intn Sample.rand 10 13).1 < 10) 
    by (vm_compute; split; [discriminate | reflexivity]).
  split; [exact H1 |]. split; [exact H2 |].
  exact (proj1 (proj2 (@colorFor_never_zero Sample.rand "" 13 H1 H2) eq_refl)).
Defined.

Lemma runes_from_ascii (s : bytes) :
  Forall (λ c, byte_val c < 128) s → runes_from 0 s = byte_val <$> s.
Proof.
  induction 1 as [|c s Hc _ IH]; [done |].
  cbn [runes_from]. unfold DecodeRune.
  destruct (Z.ltb_spec (byte_val c) 128); [| lia].
  simpl. by rewrite IH.
Qed.

Lemma sum_Permutation (xs ys : list Z) :
  xs ≡ₚ ys → foldr Z.add 0 xs = foldr Z.add 0 ys.
Proof. induction 1; simpl; lia. Qed.

(** X11: for an identity of ASCII bytes the code points are the bytes, so the
    colour is the byte sum modulo 256 and does not depend on the order of
    the characters: identities that are anagrams of each other get the same
    colour. *)
Theorem colorFor_ascii_anagram `{Rand} (n n' : string) (g g' : rng) :
  Forall (λ c, byte_val c < 128) (to_bytes n) →
  to_bytes n ≡ₚ to_bytes n' →
  code_point_sum n ≤ max_int →
  code_point_sum n mod 256 ≠ 0 →
  code_point_sum n = foldr Z.add 0 (byte_val <$> to_bytes n) ∧
  (colorFor n' g').1 = (colorFor n g).1.
Proof.
  intros Hascii Hperm Hmax Hnz.
  assert (Hsum : ∀ m, Forall (λ c, byte_val c < 128) (to_bytes m) →
                 code_point_sum m = foldr Z.add 0 (byte_val <$> to_bytes m)).
  { intros m Hm. unfold code_point_sum, runes. by rewrite runes_from_ascii. }
  assert (Hascii' : Forall (λ c, byte_val c < 128) (to_bytes n'))
    by (by rewrite <- Hperm).
  assert (Heq : code_point_sum n' = code_point_sum n).
  { rewrite !Hsum by done. apply sum_Permutation. by rewrite Hperm. }
  split; [by apply Hsum |].
  rewrite !colorFor_nonzero by (rewrite ?Heq; done). simpl. by rewrite Heq.
Qed.

Lemma colorFor_ascii_anagram_witness :
  Forall (λ c, byte_val c < 128) (to_bytes "web-1") ∧
  to_bytes "web-1" ≡ₚ to_bytes "1-bew" ∧
  code_point_sum "web-1" ≤ max_int ∧
  code_point_sum "web-1" mod 256 ≠ 0 ∧
  (@colorFor Sample.rand "1-bew" 3).1 = (@colorFor Sample.rand "web-1" 8).1.
Proof.
  assert (H1 : Forall (λ c, byte_val c < 128) (to_bytes "web-1"))
    by (repeat constructor).
  assert (H2 : to_bytes "web-1" ≡ₚ to_bytes "1-bew").
  { change (to_bytes "1-bew") with (reverse (to_bytes "web-1")).
    by rewrite reverse_Permutation. }
  assert (H3 : code_point_sum "web-1" ≤ max_int) by (vm_compute; discriminate).
  assert (H4 : code_point_sum "web-1" mod 256 ≠ 0) by (vm_compute; discriminate).
  split; [exact H1 |]. split; [exact H2 |]. split; [exact H3 |].
  split; [exact H4 |].
  exact (proj2 (@colorFor_ascii_anagram Sample.rand "web-1" "1-bew" 8 3
                  H1 H2 H3 H4)).
Defined.

(** ** Rendering a collection *)

Section RenderAllFacts.
Context `{Colorizer, Rand}.

Lemma store_at_Some {A} (ll : list A) (i : nat) (v : A) :
  (i < length ll)%nat → store_at ll i v = Some (<[i := v]> ll).
Proof.
  intros Hi. unfold store_at. by destruct (Nat.ltb_spec i (length ll)); [| lia].
Qed.

Lemma store_at_None {A} (ll : list A) (i : nat) (v : A) :
  (length ll ≤ i)%nat → store_at ll i v = None.
Proof.
  intros Hi. unfold store_at. by destruct (Nat.ltb_spec i (length ll)); [lia |].
Qed.

(** The loop on a buffer that is long enough. *)
Lemma render_loop_spec (logModifiers : registry) (showTime : bool)
    (modifier : string) (items : list LogItem) :
  ∀ (i : nat) (colors : gmap string Z) (ll : list bytes) (g : rng),
    (i + length items ≤ length ll)%nat →
    ∃ ll' colors' g',
      render_loop logModifiers showTime modifier items i colors ll g =
        Some (ll', colors', g') ∧
      length ll' = length ll ∧
      colors ⊆ colors' ∧
      (∀ k item, items !! k = Some item →
         ∃ color, colors' !! ID item = Some color ∧
           ll' !! (i + k)%nat =
             Some (Render logModifiers item color showTime modifier)) ∧
      (∀ j, (j < i ∨ i + length items ≤ j)%nat → ll' !! j = ll !! j) ∧
      (∀ id c, colors' !! id = Some c →
         colors !! id = Some c ∨ ∃ g0, c = (colorFor id g0).1).
Proof.
  induction items as [|item items IH]; intros i colors ll g Hlen.
  - exists ll, colors, g. simpl. repeat split; try done; auto.
  - cbn [render_loop length] in *.
    set (pick := match colors !! ID item with
                 | Some color => (color, colors, g)
                 | None => let '(color, g0) := colorFor (ID item) g in
                           (color, <[ID item := color]> colors, g0)
                 end).
    assert (Hpick : ∃ color colors1 g1,
               pick = (color, colors1, g1) ∧ colors ⊆ colors1 ∧
               colors1 !! ID item = Some color ∧
               (∀ id c, colors1 !! id = Some c →
                  colors !! id = Some c ∨ ∃ g0, c = (colorFor id g0).1)).
    { unfold pick. destruct (colors !! ID item) as [color|] eqn:Hc.
      - exists color, colors, g. auto.
      - destruct (colorFor (ID item) g) as [color g0] eqn:Hcf.
        exists color, (<[ID item := color]> colors), g0.
        split; [done |]. split; [by apply insert_subseteq |].
        split; [by rewrite lookup_insert_eq |].
        intros id c. destruct (decide (ID item = id)) as [<- | Hne].
        + rewrite lookup_insert_eq. intros [= <-]. right. exists g.
          by rewrite Hcf.
        + rewrite lookup_insert_ne by done. auto. }
    destruct Hpick as (color & colors1 & g1 & -> & Hsub & Hcol & Hprov).
    rewrite store_at_Some by lia. simpl.
    destruct (IH (S i) colors1
                (<[i := Render logModifiers item color showTime modifier]> ll)
                g1) as (ll' & colors' & g' & Hloop & Hl & Hsub' & Hent & Hout & Hprov');
      [rewrite length_insert; lia |].
    exists ll', colors', g'. rewrite length_insert in Hl.
    split; [done |]. split; [done |].
    split; [by etrans |]. split; [| split].
    + intros [|k] it Hk; simpl in Hk.
      * simplify_eq. exists color.
        split; [by eapply lookup_weaken |].
        rewrite Nat.add_0_r, Hout by lia.
        apply list_lookup_insert_eq. lia.
      * destruct (Hent k it Hk) as (c & Hc & Hr). exists c.
        split; [done |]. by replace (i + S k)%nat with (S i + k)%nat by lia.
    + intros j Hj. rewrite Hout by lia.
      apply list_lookup_insert_ne. lia.
    + intros id c Hc. destruct (Hprov' id c Hc) as [Hc1 | ?]; auto.
Qed.

(** The loop on a buffer that is too short. *)
Lemma render_loop_short (logModifiers : registry) (showTime : bool)
    (modifier : string) (items : list LogItem) :
  ∀ (i : nat) (colors : gmap string Z) (ll : list bytes) (g : rng),
    (i ≤ length ll < i + length items)%nat →
    render_loop logModifiers showTime modifier items i colors ll g = None.
Proof.
  induction items as [|item items IH]; intros i colors ll g Hlen;
    cbn [render_loop length] in *.
  - lia.
  - destruct (match colors !! ID item with
              | Some color => (color, colors, g)
              | None => let '(color, g0) := colorFor (ID item) g in
                        (color, <[ID item := color]> colors, g0)
              end) as [[color colors1] g1].
    destruct (decide (i < length ll)%nat).
    + rewrite store_at_Some by done. simpl. apply IH.
      rewrite length_insert. lia.
    + by rewrite store_at_None by lia.
Qed.

(** X12: LogItems.Render into a buffer at least as long as the collection: it
    keeps the length of the buffer, writes at each index of the collection
    the rendering of that item in the colour of its identity (one colour
    for each identity: items with the same ID get the same colour, also
    when that colour was drawn at random), and leaves the entries behind the
    collection as they were.  Each colour is a value of colorFor at the
    identity. *)
Theorem LogItems_Render_colours (logModifiers : registry) (l : list LogItem)
    (showTime : bool) (modifier : string) (ll : list bytes) (g : rng) :
  (length l ≤ length ll)%nat →
  ∃ (ll' : list bytes) (g' : rng) (paint : string → Z),
    LogItems_Render logModifiers l showTime modifier ll g = Some (ll', g') ∧
    length ll' = length ll ∧
    (∀ i item, l !! i = Some item →
       ll' !! i =
         Some (Render logModifiers item (paint (ID item)) showTime modifier)) ∧
    (∀ j, (length l ≤ j)%nat → ll' !! j = ll !! j) ∧
    (∀ item, item ∈ l → ∃ g0, paint (ID item) = (colorFor (ID item) g0).1).
Proof.
  intros Hlen.
  destruct (render_loop_spec logModifiers showTime modifier l 0 ∅ ll g)
    as (ll' & colors' & g' & Hloop & Hl & _ & Hent & Hout & Hprov); [lia |].
  exists ll', g', (λ id, default 0 (colors' !! id)).
  unfold LogItems_Render. rewrite Hloop. simpl.
  split; [done |]. split; [done |]. split; [| split].
  - intros i item Hi. destruct (Hent i item Hi) as (c & Hc & Hr).
    by rewrite Hc.
  - intros j Hj. apply Hout. lia.
  - intros item [i Hi]%list_elem_of_lookup.
    destruct (Hent i item Hi) as (c & Hc & _). rewrite Hc. simpl.
    destruct (Hprov _ _ Hc) as [Hc0 | Hg]; [| done].
    by rewrite lookup_empty in Hc0.
Qed.

(** X13: LogItems.Render into a buffer shorter than the collection panics (the
    index of the write is out of range). *)
Theorem LogItems_Render_short_buffer (logModifiers : registry)
    (l : list LogItem) (showTime : bool) (modifier : string)
    (ll : list bytes) (g : rng) :
  (length ll < length l)%nat →
  LogItems_Render logModifiers l showTime modifier ll g = None.
Proof.
  intros Hlen. unfold LogItems_Render.
  by rewrite render_loop_short by lia.
Qed.

End RenderAllFacts.

Lemma LogItems_Render_colours_witness :
  let l := [mkLogItem "web" "c1" "t0" false (to_bytes "a");
            mkLogItem "" "" "t1" false (to_bytes "b");
            mkLogItem "" "" "t2" false (to_bytes "c")] in
  let ll := [[]; []; []; to_bytes "kept"] in
  (length l ≤ length ll)%nat ∧
  ∃ (ll' : list bytes) (g' : Z) (paint : string → Z),
    @LogItems_Render Sample.colorizer Sample.rand (@init Sample.zappretty)
      l false "" ll 4 = Some (ll', g') ∧
    length ll' = length ll ∧
    (∀ i item, l !! i = Some item →
       ll' !! i =
         Some (@Render Sample.colorizer (@init Sample.zappretty) item
                 (paint (ID item)) false "")) ∧
    (∀ j, (length l ≤ j)%nat → ll' !! j = ll !! j) ∧
    (∀ item, item ∈ l →
       ∃ g0, paint (ID item) = (@colorFor Sample.rand (ID item) g0).1).
Proof.
  intros l ll.
  assert (Hlen : (length l ≤ length ll)%nat) by (simpl; lia).
  split; [exact Hlen |].
  exact (@LogItems_Render_colours Sample.colorizer Sample.rand
           (@init Sample.zappretty) l false "" ll 4 Hlen).
Defined.

Lemma LogItems_Render_short_buffer_witness :
  let l := [mkLogItem "web" "c1" "t0" false (to_bytes "a");
            mkLogItem "" "" "t1" false (to_bytes "b")] in
  (length [to_bytes "one"] < length l)%nat ∧
  @LogItems_Render Sample.colorizer Sample.rand (@init Sample.zappretty)
    l false "" [to_bytes "one"] 4 = None.
Proof.
  intros l.
  assert (Hlen : (length [to_bytes "one"] < length l)%nat) by (simpl; lia).
  split; [exact Hlen |].
  exact (@LogItems_Render_short_buffer Sample.colorizer Sample.rand
           (@init Sample.zappretty) l false "" [to_bytes "one"] 4 Hlen).
Defined.

(** ** Filtering *)

(** X14: the expansion loop of filterLogs takes a flat slice of any number of
    spans and appends the positions of each, in order; a slice of odd
    length makes it panic; a span [lo, hi) gives hi - lo positions, none
    when hi ≤ lo. *)
Theorem span_loop_expands (spans : list (Z * Z)) (ii : list Z) :
  span_loop (flat_spans spans) ii = Some (ii ++ all_span_positions spans) ∧
  (∀ x : Z, span_loop (flat_spans spans ++ [x]) ii = None) ∧
  (∀ lo hi : Z,
     length (span_positions lo hi) = Z.to_nat (hi - lo) ∧
     (∀ j, j ∈ span_positions lo hi ↔ lo ≤ j < hi)).
Proof.
  split; [| split].
  - revert ii. induction spans as [|[lo hi] spans IH]; intros ii; simpl.
    + by rewrite app_nil_r.
    + by rewrite IH, <- app_assoc.
  - intros x. revert ii.
    induction spans as [|[lo hi] spans IH]; intros ii; simpl; [done |].
    apply IH.
  - intros lo hi. unfold span_positions. split; [apply length_seqZ |].
    intros j. rewrite elem_of_seqZ. lia.
Qed.

Section FilterMore.
Context `{Colorizer, Selectors, Regexp, Fuzzy}.

Lemma kept_from_sorted (rx : regexp) (invert : bool) (lines : list bytes) :
  ∀ i, StronglySorted Z.lt (kept_from rx invert i lines).*1 ∧
       Forall (λ j, i ≤ j < i + len lines) (kept_from rx invert i lines).*1.
Proof.
  induction lines as [|line lines IH]; intros i; simpl.
  - split; constructor.
  - destruct (IH (i + 1)) as [Hs Hf].
    assert (Hf' : Forall (λ j, i ≤ j < i + len (line :: lines))
                    (kept_from rx invert (i + 1) lines).*1).
    { eapply Forall_impl; [exact Hf |]. unfold len. simpl. lia. }
    destruct (keeps rx invert line); simpl; [| done]. split.
    + constructor; [done |]. eapply Forall_impl; [exact Hf |]. simpl. lia.
    + constructor; [unfold len; simpl; lia | done].
Qed.

Lemma Lines_lookup (logModifiers : registry) (l : list LogItem)
    (showTime : bool) (modifier : string) (k : nat) :
  Lines logModifiers l showTime modifier !! k =
  (λ item, Render logModifiers item 0 showTime modifier) <$> l !! k.
Proof.
  unfold Lines. revert k. induction l as [|item l IH]; intros [|k]; simpl; auto.
Qed.

(** X15: for a pattern that compiles, filterLogs returns one highlight set for
    each match, and the matches are indices of the collection in strictly
    ascending order. *)
Theorem filterLogs_matches_ascending (logModifiers : registry)
    (l : list LogItem) (q p : string) (invert showTime : bool)
    (modifier : string) (rx : regexp) :
  strip_inverse q = Some (invert, p) →
  Compile ("(?i)" ++ p)%string = inl rx →
  ∃ (matches : list Z) (indices : list (list Z)),
    filterLogs logModifiers l q showTime modifier =
      Some (matches, indices, None) ∧
    length matches = length indices ∧
    StronglySorted Z.lt matches ∧
    Forall (λ j, 0 ≤ j < len l) matches.
Proof.
  intros Hq Hrx. eexists _, _.
  split; [by apply (filterLogs_compiled _ _ _ p) |].
  split; [by rewrite !length_fmap |].
  destruct (kept_from_sorted rx invert
              (Lines logModifiers l showTime modifier) 0) as [Hs Hf].
  split; [done |]. by rewrite length_Lines in Hf.
Qed.

(** X16: for a pattern that compiles, an index is among the matches of
    filterLogs exactly when the item at that index, rendered in colour 0
    with the given showTime and modifier, has a match of the pattern (has
    none, for an inverted query): the filter reads the rendered line, with
    its pod, container and timestamp columns, not the message alone. *)
Theorem filterLogs_matches_rendered (logModifiers : registry)
    (l : list LogItem) (q p : string) (invert showTime : bool)
    (modifier : string) (rx : regexp) :
  strip_inverse q = Some (invert, p) →
  Compile ("(?i)" ++ p)%string = inl rx →
  ∃ (matches : list Z) (indices : list (list Z)),
    filterLogs logModifiers l q showTime modifier =
      Some (matches, indices, None) ∧
    ∀ j : Z,
      j ∈ matches ↔
      0 ≤ j ∧ ∃ item, l !! Z.to_nat j = Some item ∧
        let line := Render logModifiers item 0 showTime modifier in
        if invert then FindIndex rx line = None
        else FindIndex rx line ≠ None.
Proof.
  intros Hq Hrx. eexists _, _.
  split; [by apply (filterLogs_compiled _ _ _ p) |].
  intros j. rewrite elem_of_kept_from, Z.sub_0_r.
  setoid_rewrite Lines_lookup. split.
  - intros (Hj & line & Hl & Hk). split; [done |].
    destruct (l !! Z.to_nat j) as [item|]; [| done].
    exists item. split; [done |]. simpl in Hl. simplify_eq. simpl.
    unfold keeps in Hk. destruct invert; by apply bool_decide_eq_true in Hk.
  - intros (Hj & item & Hl & Hk). split; [done |].
    exists (Render logModifiers item 0 showTime modifier).
    rewrite Hl. split; [done |]. simpl in Hk.
    unfold keeps. destruct invert; by apply bool_decide_eq_true.
Qed.


End FilterMore.

Lemma filterLogs_matches_ascending_witness :
  let l := [mkLogItem "" "" "t0" false (to_bytes "ab ab");
            mkLogItem "" "" "t1" false (to_bytes "xx");
            mkLogItem "" "" "t2" false (to_bytes "cAB")] in
  @strip_inverse Sample.selectors "ab" = Some (false, "ab"%string) ∧
  @Compile Sample.regexps "(?i)ab" = inl (Sample.literal (to_bytes "ab")) ∧
  ∃ (matches : list Z) (indices : list (list Z)),
    @filterLogs Sample.colorizer Sample.selectors Sample.regexps
      (@init Sample.zappretty) l "ab" false "" =
      Some (matches, indices, None) ∧
    length matches = length indices ∧
    StronglySorted Z.lt matches ∧
    Forall (λ j, 0 ≤ j < len l) matches.
Proof.
  intros l.
  assert (H1 : @strip_inverse Sample.selectors "ab" = Some (false, "ab"%string))
    by reflexivity.
  assert (H2 : @Compile Sample.regexps "(?i)ab" =
               inl (Sample.literal (to_bytes "ab"))) by reflexivity.
  split; [exact H1 |]. split; [exact H2 |].
  exact (@filterLogs_matches_ascending Sample.colorizer Sample.selectors
           Sample.regexps (@init Sample.zappretty) l "ab" "ab" false false ""
           _ H1 H2).
Defined.

Lemma filterLogs_matches_rendered_witness :
  let l := [mkLogItem "web" "" "t0" false (to_bytes "started");
            mkLogItem "db" "" "t1" false (to_bytes "web gone")] in
  @strip_inverse Sample.selectors "!web" = Some (true, "web"%string) ∧
  @Compile Sample.regexps "(?i)web" = inl (Sample.literal (to_bytes "web")) ∧
  ∃ (matches : list Z) (indices : list (list Z)),
    @filterLogs Sample.colorizer Sample.selectors Sample.regexps
      (@init Sample.zappretty) l "!web" false "" =
      Some (matches, indices, None) ∧
    ∀ j : Z,
      j ∈ matches ↔
      0 ≤ j ∧ ∃ item, l !! Z.to_nat j = Some item ∧
        let line := @Render Sample.colorizer (@init Sample.zappretty)
                      item 0 false "" in
        if true then @FindIndex Sample.regexps
                       (Sample.literal (to_bytes "web")) line = None
        else @FindIndex Sample.regexps
               (Sample.literal (to_bytes "web")) line ≠ None.
Proof.
  intros l.
  assert (H1 : @strip_inverse Sample.selectors "!web" =
               Some (true, "web"%string)) by reflexivity.
  assert (H2 : @Compile Sample.regexps "(?i)web" =
               inl (Sample.literal (to_bytes "web"))) by reflexivity.
  split; [exact H1 |]. split; [exact H2 |].
  exact (@filterLogs_matches_rendered Sample.colorizer Sample.selectors
           Sample.regexps (@init Sample.zappretty) l "!web" "web" true false ""
           _ H1 H2).
Defined.

Lemma filterLogs_highlight_sets_witness :
  let l := [mkLogItem "" "" "t0" false (to_bytes "ab ab");
            mkLogItem "" "" "t1" false (to_bytes "xx")] in
  let rx := Sample.literal (to_bytes "ab") in
  @strip_inverse Sample.selectors "ab" = Some (false, "ab"%string) ∧
  @Compile Sample.regexps "(?i)ab" = inl rx ∧
  let kept := @kept_from Sample.regexps rx false 0
                (@Lines Sample.colorizer (@init Sample.zappretty) l false "") in
  @filterLogs Sample.colorizer Sample.selectors Sample.regexps
    (@init Sample.zappretty) l "ab" false "" =
    Some (kept.*1, (@highlight Sample.regexps rx ∘ snd) <$> kept, None).
Proof.
  intros l rx.
  assert (H1 : @strip_inverse Sample.selectors "ab" = Some (false, "ab"%string))
    by reflexivity.
  assert (H2 : @Compile Sample.regexps "(?i)ab" = inl rx) by reflexivity.
  split; [exact H1 |]. split; [exact H2 |].
  exact (proj1 (@filterLogs_highlight_sets Sample.colorizer Sample.selectors
                  Sample.regexps (@init Sample.zappretty) l "ab" "ab"
                  false false "" rx H1 H2)).
Defined.


(** ** Clone *)

Lemma copy_into_zeroes (src : bytes) :
  Heap.copy (replicate (length src) x00) src = src.
Proof.
  unfold Heap.copy. rewrite length_replicate, firstn_all.
  rewrite drop_ge by (by rewrite length_replicate). apply app_nil_r.
Qed.

(** X19: Clone gives an item with the same fields and the same bytes, in a
    buffer of its own: the buffers that were there keep their contents, and
    a later write into the bytes of the clone does not show in the
    original, nor a write into the original in the clone. *)
Theorem Clone_independent (l : Heap.LogItemAt) (σ : gmap positive bytes)
    (b : bytes) :
  σ !! Heap.aBytes l = Some b →
  ∃ (l' : Heap.LogItemAt) (σ' : gmap positive bytes),
    Heap.Clone l σ = Some (l', σ') ∧
    Heap.aBytes l' ≠ Heap.aBytes l ∧
    Heap.load σ' l' = Heap.load σ l ∧
    (∀ a, a ∈ dom σ → σ' !! a = σ !! a) ∧
    (∀ i c σ'', Heap.poke l' i c σ' = Some σ'' →
       Heap.load σ'' l = Heap.load σ l) ∧
    (∀ i c σ'', Heap.poke l i c σ' = Some σ'' →
       Heap.load σ'' l' = Heap.load σ l).
Proof.
  intros Hb. unfold Heap.Clone, Heap.make. rewrite Hb. simpl.
  set (a := fresh (dom σ)).
  assert (Hfresh : a ∉ dom σ) by apply is_fresh.
  assert (Hne : a ≠ Heap.aBytes l).
  { intros Heq. apply Hfresh. rewrite Heq. apply elem_of_dom. eauto. }
  rewrite lookup_insert_eq. simpl. rewrite copy_into_zeroes, insert_insert_eq.
  eexists _, _. split; [done |]. simpl.
  split; [done |]. split; [| split; [| split]].
  - unfold Heap.load. simpl. by rewrite lookup_insert_eq, Hb.
  - intros a' Ha'. apply lookup_insert_ne. by intros <-.
  - intros i c σ''. unfold Heap.poke, Heap.load. simpl.
    rewrite lookup_insert_eq. simpl.
    destruct (i <? length b)%nat; [| done]. intros [= <-].
    by rewrite !lookup_insert_ne by done.
  - intros i c σ''. unfold Heap.poke, Heap.load. simpl.
    rewrite lookup_insert_ne, Hb by done. simpl.
    destruct (i <? length b)%nat; [| done]. intros [= <-].
    by rewrite lookup_insert_ne, lookup_insert_eq by done.
Qed.

Lemma Clone_independent_witness :
  let l := Heap.mkLogItemAt "web" "c1" "t0" false 1%positive in
  let σ : gmap positive bytes := {[ 1%positive := to_bytes "started" ]} in
  σ !! Heap.aBytes l = Some (to_bytes "started") ∧
  ∃ (l' : Heap.LogItemAt) (σ' : gmap positive bytes),
    Heap.Clone l σ = Some (l', σ') ∧
    Heap.aBytes l' ≠ Heap.aBytes l ∧
    Heap.load σ' l' = Heap.load σ l.
Proof.
  intros l σ.
  assert (Hb : σ !! Heap.aBytes l = Some (to_bytes "started"))
    by reflexivity.
  split; [exact Hb |].
  destruct (Clone_independent l σ _ Hb) as (l' & σ' & H1 & H2 & H3 & _).
  exists l', σ'. split; [exact H1 |]. split; [exact H2 | exact H3].
Defined.
